(** * evosax: fitness shaping, SimpleGA, SimAnneal and the LES fitness features

    A shallow embedding of
      - [evosax/core/fitness.py]                  (module [Fitness]),
      - [evosax/strategies/sim_anneal.py]         (module [SimAnneal]),
      - [evosax/strategies/simple_ga.py]          (module [SimpleGA]),
      - [evosax/learned_evolution/les_tools.py]   (modules [LesTools] and
        [EvolutionPath]),
    and of the few [jax.numpy] / [jax.random] primitives they call
    (module [Jnp], class [PRNG]).

    Conventions.
      - A JAX scalar is an exact rational [Qc] (finite values, no NaN, no
        rounding); [x / 0] is [0] there.  The functions [exp] and [sqrt],
        which leave the rationals, are operations of the class [Libm].
      - A 1-d array is a [list Qc], a 2-d array the list of its rows.  Shapes
        are static in JAX; the statements that need them carry the shape of
        their arguments as a hypothesis.
      - Random draws are functions of an explicit key (class [PRNG]).
      - Python exceptions are the [Raise] results of the type [result]. *)

From Stdlib Require Import QArith Qcanon Lqa.
From stdpp Require Import base list numbers strings sorting.

Local Open Scope Qc_scope.

(** ** Python results *)

Inductive exn : Type :=
  | AssertionError (msg : string)
  | TypeError (msg : string).

Inductive result (A : Type) : Type :=
  | Ok (a : A)
  | Raise (e : exn).
Arguments Ok {A} a.
Arguments Raise {A} e.

(** Sequencing: [x ← m; k] stops at the first exception. *)
#[global] Instance result_bind : MBind result := λ A B k m,
  match m with
  | Ok a => k a
  | Raise e => Raise e
  end.

(** ** Scalars *)

Definition Qc_of_nat (n : nat) : Qc := Qc_of_Z (Z.of_nat n).

(** [1e-10] and [1e10]. *)
Definition eps : Qc := Q2Qc (1 # 10000000000).
Definition big : Qc := Qc_of_Z 10000000000.
Definition half : Qc := Q2Qc (1 # 2).

(** A Python [bool] used in arithmetic: [True] is 1, [False] is 0. *)
Definition b2q (b : bool) : Qc := if b then 1 else 0.

(** The two library functions whose values are not rational. *)
Class Libm : Type := {
  exp : Qc → Qc;
  sqrt : Qc → Qc
}.

(** ** The [jax.numpy] primitives used by the sources *)

Module Jnp.

(** [a[i]] on a 1-d array and on the rows of a 2-d array. *)
Definition getitem (a : list Qc) (i : nat) : Qc := default 0 (a !! i).
Definition getrow (a : list (list Qc)) (i : nat) : list Qc :=
  default [] (a !! i).

(** [a[idx]] with an index array. *)
Definition take (a : list Qc) (idx : list nat) : list Qc :=
  map (getitem a) idx.
Definition take_rows (a : list (list Qc)) (idx : list nat)
  : list (list Qc) :=
  map (getrow a) idx.

Definition maximum (x y : Qc) : Qc := if decide (x < y) then y else x.
Definition minimum (x y : Qc) : Qc := if decide (y < x) then y else x.

(** [jnp.clip(x, min=lo, max=hi)]; an absent bound is [None]. *)
Definition clip (x : Qc) (lo hi : option Qc) : Qc :=
  let x1 := match lo with Some l => maximum x l | None => x end in
  match hi with Some h => minimum x1 h | None => x1 end.

Definition sum (a : list Qc) : Qc := foldr Qcplus 0 a.

(** [jnp.nanmean]: without NaN it is the mean. *)
Definition nanmean (a : list Qc) : Qc := sum a / Qc_of_nat (length a).

(** [jnp.nanmin] and [jnp.nanmax] on a 1-d array. *)
Definition nanmin (a : list Qc) : Qc :=
  match a with
  | [] => 0
  | x :: a' => foldl minimum x a'
  end.
Definition nanmax (a : list Qc) : Qc :=
  match a with
  | [] => 0
  | x :: a' => foldl maximum x a'
  end.

(** [jnp.argmin]: the first index that holds the least value. *)
Fixpoint argmin_from (a : list Qc) (i : nat) (bi : nat) (bv : Qc) : nat :=
  match a with
  | [] => bi
  | x :: a' =>
      if decide (x < bv) then argmin_from a' (S i) i x
      else argmin_from a' (S i) bi bv
  end.
Definition argmin (a : list Qc) : nat :=
  match a with
  | [] => 0
  | x :: a' => argmin_from a' 1 0 x
  end.

(** [jnp.argsort]: the indices in ascending order of their values, equal
    values in the order of their indices (the sort is stable). *)
Fixpoint insert_by (key : nat → Qc) (i : nat) (l : list nat) : list nat :=
  match l with
  | [] => [i]
  | j :: l' =>
      if decide (key i ≤ key j) then i :: l else j :: insert_by key i l'
  end.
Definition argsort (a : list Qc) : list nat :=
  foldr (insert_by (getitem a)) [] (seq 0 (length a)).

(** [base.at[idx].set(vals)]: the updates are done in order; an index out
    of range is dropped. *)
Definition at_set {A} (base : list A) (idx : list nat) (vals : list A)
  : list A :=
  foldl (λ acc iv, <[iv.1 := iv.2]> acc) base (zip idx vals).

(** [jnp.cumsum]. *)
Fixpoint cumsum_from (acc : Qc) (a : list Qc) : list Qc :=
  match a with
  | [] => []
  | x :: a' => (acc + x) :: cumsum_from (acc + x) a'
  end.
Definition cumsum (a : list Qc) : list Qc := cumsum_from 0 a.

(** [jnp.searchsorted(a, v)] (side left) on an ascending array: the first
    index whose value is not below [v]. *)
Fixpoint searchsorted (a : list Qc) (v : Qc) : nat :=
  match a with
  | [] => 0%nat
  | x :: a' => if decide (x < v) then S (searchsorted a' v) else 0%nat
  end.

(** A Python value handed to a [jax.numpy] reduction: an array, or the
    bound method [a.name] of an array (an attribute that was not called). *)
Inductive pyobj : Type :=
  | PyArray (a : list Qc)
  | PyMethod (self : list Qc) (name : string).

(** [check_arraylike]: the reductions refuse what is not an array. *)
Definition check_arraylike (fname : string) (o : pyobj)
  : result (list Qc) :=
  match o with
  | PyArray a => Ok a
  | PyMethod _ _ =>
      Raise (TypeError (fname ++ " requires ndarray or scalar arguments"))
  end.

Definition nanmin_py (o : pyobj) : result Qc :=
  a ← check_arraylike "nanmin" o; Ok (nanmin a).
Definition nanmax_py (o : pyobj) : result Qc :=
  a ← check_arraylike "nanmax" o; Ok (nanmax a).

End Jnp.

(** ** [evosax/core/fitness.py] *)

Module Fitness.

(** The object built by [FitnessShaper.__init__]. *)
Record FitnessShaper : Type := {
  w_decay : Qc;
  maximize : bool;
  centered_rank : bool;
  z_score : bool;
  norm_range : bool
}.

(** Python's [bool(x)] for an argument of type [bool | int]. *)
Definition py_bool (x : Z) : bool := negb (x =? 0)%Z.

(** [True + True]: the booleans are counted as integers. *)
Definition num_options_on (cr zs nr : bool) : Z :=
  (Z.b2z cr + Z.b2z zs + Z.b2z nr)%Z.

Definition trafo_names : list string :=
  ["centered_rank"; "z_score"; "norm_range"; "raw"]%string.

(** [FitnessShaper.__init__]; [fitness_trafo] is [None] or a string. *)
Definition __init__ (centered_rank z_score norm_range : Z) (w_decay : Qc)
    (maximize : Z) (fitness_trafo : option string)
  : result FitnessShaper :=
  let '(cr, zs, nr) :=
    match fitness_trafo with
    | Some s =>
        if bool_decide (s ∈ trafo_names)
        then (bool_decide (s = "centered_rank"%string),
              bool_decide (s = "z_score"%string),
              bool_decide (s = "norm_range"%string))
        else (py_bool centered_rank, py_bool z_score, py_bool norm_range)
    | None => (py_bool centered_rank, py_bool z_score, py_bool norm_range)
    end in
  if bool_decide (num_options_on cr zs nr < 2)%Z
  then Ok {| w_decay := w_decay; maximize := py_bool maximize;
             centered_rank := cr; z_score := zs; norm_range := nr |}
  else Raise (AssertionError "Only use one fitness shaping transformation.").

Section Trafos.
Context `{Libm}.

(** [jnp.nanstd]. *)
Definition nanstd (a : list Qc) : Qc :=
  let m := Jnp.nanmean a in
  sqrt (Jnp.nanmean (map (λ x, (x - m) * (x - m)) a)).

Definition z_score_trafo (arr : list Qc) : list Qc :=
  let m := Jnp.nanmean arr in
  let s := nanstd arr in
  map (λ x, (x - m) / (s + eps)) arr.

(** [assert fitness.ndim == 1] holds by the type of [fitness]. *)
Definition ranksort (fitness : list Qc) : list nat :=
  let idx := Jnp.argsort fitness in
  Jnp.at_set idx idx (seq 0 (length fitness)).

Definition centered_rank_trafo (fitness : list Qc) : list Qc :=
  let y := ranksort fitness in
  let y := map (λ r, Qc_of_nat r / Qc_of_Z (Z.of_nat (length fitness) - 1))
             y in
  map (λ v, v - half) y.

Definition compute_l2_norm (solution : list (list Qc)) : list Qc :=
  map (λ row, Jnp.nanmean (map (λ x, x * x) row)) solution.

Definition range_norm_trafo (arr : list Qc) (min_val max_val : Qc)
  : list Qc :=
  let arr := map (λ x, Jnp.clip x (Some (- big)) (Some big)) arr in
  map (λ x, (max_val - min_val) * (x - Jnp.nanmin arr)
            / (Jnp.nanmax arr - Jnp.nanmin arr + eps) + min_val) arr.

(** [FitnessShaper.apply]. *)
Definition apply (self : FitnessShaper) (population : list (list Qc))
    (fitness : list Qc) : list Qc :=
  let fitness :=
    if maximize self then map (λ f, (-1) * f) fitness else fitness in
  let fitness :=
    if bool_decide (0 < w_decay self)
    then
      let l2_fit_red :=
        map (λ n, w_decay self * n) (compute_l2_norm population) in
      zip_with Qcplus fitness l2_fit_red
    else fitness in
  let fitness :=
    if centered_rank self then centered_rank_trafo fitness else fitness in
  let fitness :=
    if z_score self then z_score_trafo fitness else fitness in
  let fitness :=
    if norm_range self then range_norm_trafo fitness (-1) 1
    else fitness in
  fitness.

End Trafos.

End Fitness.

(** ** [jax.random] *)

(** Keys and the draws made from them.  [uniform] draws from [[0, 1)]. *)
Class PRNG : Type := {
  Key : Type;
  split : Key → nat → list Key;
  uniform : Key → Qc;
  uniform_vec : Key → nat → list Qc;
  normal_vec : Key → nat → list Qc;
  normal_mat : Key → nat → nat → list (list Qc);
  length_split : ∀ k n, length (split k n) = n;
  uniform_range : ∀ k, 0 ≤ uniform k ∧ uniform k < 1;
  length_uniform_vec : ∀ k n, length (uniform_vec k n) = n;
  uniform_vec_range :
    ∀ k n, Forall (λ u, 0 ≤ u ∧ u < 1) (uniform_vec k n);
  length_normal_vec : ∀ k n, length (normal_vec k n) = n;
  length_normal_mat : ∀ k n d, length (normal_mat k n d) = n
}.

Module Random.
Section Random.
Context `{PRNG}.

(** The indices drawn by [jax.random.choice(key, a, (n,), p=p)] (with
    replacement): inverse transform sampling on the cumulated weights. *)
Definition choice_indices (key : Key) (n : nat) (p : list bool)
  : list nat :=
  let p_cuml := Jnp.cumsum (map b2q p) in
  let r := map (λ u, default 0 (last p_cuml) * (1 - u))
             (uniform_vec key n) in
  map (Jnp.searchsorted p_cuml) r.

(** [jax.random.choice] on the rows of a 2-d array. *)
Definition choice (key : Key) (a : list (list Qc)) (n : nat)
    (p : list bool) : list (list Qc) :=
  Jnp.take_rows a (choice_indices key n p).

End Random.
End Random.

(** ** [evosax/strategies/sim_anneal.py] *)

Module SimAnneal.

(** The fields of the base class [State] are those given in [_init]. *)
Record State : Type := {
  current_solution : list Qc;
  current_fitness : Qc;
  std : Qc;
  temperature : Qc;
  best_solution : list Qc;
  best_fitness : Qc;
  generation_counter : nat
}.

Record Params : Type := {
  std_init : Qc;
  std_decay : Qc;
  std_limit : Qc;
  temperature_init : Qc;
  temperature_limit : Qc;
  temperature_decay : Qc;
  boltzmann_constant : Qc
}.

(** The attributes of the strategy object that the methods read. *)
Record SimAnneal : Type := {
  population_size : nat;
  num_dims : nat
}.

Section Methods.
Context `{PRNG} `{Libm}.

Definition _ask (self : SimAnneal) (key : Key) (state : State)
    (params : Params) : list (list Qc) * State :=
  let z := normal_mat key (population_size self) (num_dims self) in
  let population :=
    map (λ z_i, zip_with (λ c n, c + std state * n)
                  (current_solution state) z_i) z in
  (population, state).

(** The quotient under [exp] is the rational one.  Where
    [boltzmann_constant * temperature] is 0 the quotient of the floats is
    infinite or NaN; the statements on the acceptance leave that case out. *)
Definition _tell (self : SimAnneal) (key : Key)
    (population : list (list Qc)) (fitness : list Qc) (state : State)
    (params : Params) : State :=
  let best_idx := Jnp.argmin fitness in
  let best_member := Jnp.getrow population best_idx in
  let best_fitness := Jnp.getitem fitness best_idx in
  let delta := best_fitness - current_fitness state in
  let metropolis :=
    exp (- delta / (boltzmann_constant params * temperature state)) in
  let acceptance := uniform key in
  let replace :=
    bool_decide (delta < 0) || bool_decide (acceptance < metropolis) in
  let current_solution' :=
    if replace then best_member else current_solution state in
  let current_fitness' :=
    if replace then best_fitness else current_fitness state in
  let std' :=
    Jnp.clip (std state * std_decay params) (Some (std_limit params))
      None in
  let temperature' :=
    Jnp.clip (temperature state * temperature_decay params)
      (Some (temperature_limit params)) None in
  {| current_solution := current_solution';
     current_fitness := current_fitness';
     std := std';
     temperature := temperature';
     best_solution := best_solution state;
     best_fitness := SimAnneal.best_fitness state;
     generation_counter := generation_counter state |}.

End Methods.

End SimAnneal.

(** ** [evosax/strategies/simple_ga.py] *)

Module SimpleGA.

Record State : Type := {
  population : list (list Qc);
  fitness : list Qc;
  std : Qc;
  best_solution : list Qc;
  best_fitness : Qc;
  generation_counter : nat
}.

Record Params : Type := {
  crossover_rate : Qc;
  std_init : Qc;
  std_decay : Qc;
  std_limit : Qc
}.

(** The attributes of the strategy object that the methods read.
    [elite_ratio] is set to 0.5 by [__init__]; [num_elites] is an attribute
    that the base class [Strategy] provides (its file is not among the
    sources), kept here as a field of its own. *)
Record SimpleGA : Type := {
  population_size : nat;
  num_dims : nat;
  elite_ratio : Qc;
  num_elites : nat
}.

Section Methods.
Context `{PRNG}.

Definition crossover (key : Key) (parent_1 parent_2 : list Qc)
    (crossover_rate : Qc) : list Qc :=
  let mask :=
    map (λ u, bool_decide (u < crossover_rate))
      (uniform_vec key (length parent_1)) in
  zip_with Qcplus
    (zip_with (λ x m, x * (1 - b2q m)) parent_1 mask)
    (zip_with (λ y m, y * b2q m) parent_2 mask).

Definition mutation (key : Key) (solution : list Qc) (std : Qc)
  : list Qc :=
  zip_with (λ x n, x + std * n) solution
    (normal_vec key (length solution)).

(** The first statements of [_ask]: the population in ascending order of
    fitness, the weights [p] and the four keys. *)
Definition elites (state : State) : list (list Qc) :=
  Jnp.take_rows (population state) (Jnp.argsort (fitness state)).

Definition elite_mask (self : SimpleGA) : list bool :=
  map (λ i, bool_decide (i < num_elites self)%nat)
    (seq 0 (population_size self)).

(** [parents_1], [parents_2] and the population after the crossover. *)
Definition ask_parents (self : SimpleGA) (key_p : Key) (state : State)
  : list (list Qc) :=
  Random.choice key_p (elites state) (population_size self)
    (elite_mask self).

Definition ask_crossover (self : SimpleGA) (key_crossover key_1 key_2 : Key)
    (state : State) (params : Params) : list (list Qc) :=
  let key_crossover := split key_crossover (population_size self) in
  let parents_1 := ask_parents self key_1 state in
  let parents_2 := ask_parents self key_2 state in
  zip_with (λ k pp, crossover k pp.1 pp.2 (crossover_rate params))
    key_crossover (zip parents_1 parents_2).

Definition _ask (self : SimpleGA) (key : Key) (state : State)
    (params : Params) : list (list Qc) * State :=
  match split key 4 with
  | [key_crossover; key_mutation; key_1; key_2] =>
      let population :=
        ask_crossover self key_crossover key_1 key_2 state params in
      let key_mutation := split key_mutation (population_size self) in
      let population :=
        zip_with (λ k x, mutation k x (std state)) key_mutation
          population in
      (population, state)
  | _ => ([], state)
  end.

Definition _tell (self : SimpleGA) (key : Key)
    (population : list (list Qc)) (fitness : list Qc) (state : State)
    (params : Params) : State :=
  let std' :=
    Jnp.clip (std state * std_decay params) (Some (std_limit params))
      None in
  {| population := population;
     fitness := fitness;
     std := std';
     best_solution := best_solution state;
     best_fitness := best_fitness state;
     generation_counter := generation_counter state |}.

End Methods.

End SimpleGA.

(** ** [evosax/learned_evolution/les_tools.py] *)

(** The functions imported from [.fitness_shaping], a file that is not among
    the sources: each gives one value per member. *)
Class FitnessShapingFns : Type := {
  centered_rank : list Qc → list Qc;
  standardize : list Qc → list Qc;
  normalize : list Qc → Qc → Qc → list Qc;
  l2_norm_sq : list (list Qc) → list Qc
}.

Module LesTools.

Record FitnessFeatures : Type := {
  ff_centered_rank : bool;
  ff_z_score : bool;
  ff_w_decay : Qc;
  ff_diff_best : bool;
  ff_norm_range : bool;
  ff_maximize : bool
}.

(** [v.reshape(-1, 1)] and [jnp.concatenate([a, b], axis=1)]. *)
Definition reshape_col (v : list Qc) : list (list Qc) := map (λ x, [x]) v.
Definition concatenate_cols (a b : list (list Qc)) : list (list Qc) :=
  zip_with app a b.

Definition norm_diff_best (fitness : list Qc) (best_fitness : Qc)
  : result (list Qc) :=
  let fitness := map (λ x, Jnp.clip x (Some (- big)) (Some big)) fitness in
  let diff_best := map (λ x, x - best_fitness) fitness in
  hi ← Jnp.nanmax_py (Jnp.PyArray diff_best);
  lo ← Jnp.nanmin_py (Jnp.PyMethod diff_best "min");
  Ok (map (λ d, Jnp.clip (d / (hi - lo + eps)) (Some (-1)) (Some 1))
        diff_best).

Section Apply.
Context `{FitnessShapingFns}.

Definition apply (self : FitnessFeatures) (x : list (list Qc))
    (fitness : list Qc) (best_fitness : Qc) : result (list (list Qc)) :=
  let fitness :=
    if ff_maximize self then map (λ f, (-1) * f) fitness else fitness in
  let fit_out :=
    reshape_col
      (map (λ f, b2q (bool_decide (f < best_fitness)) * 1) fitness) in
  let fit_out :=
    if ff_centered_rank self
    then concatenate_cols fit_out (reshape_col (centered_rank fitness))
    else fit_out in
  let fit_out :=
    if ff_z_score self
    then concatenate_cols fit_out (reshape_col (standardize fitness))
    else fit_out in
  fit_out ←
    (if ff_diff_best self
     then fit_best ← norm_diff_best fitness best_fitness;
          Ok (concatenate_cols fit_out (reshape_col fit_best))
     else Ok fit_out);
  let fit_out :=
    if ff_norm_range self
    then concatenate_cols fit_out
           (reshape_col (normalize fitness (-1) 1))
    else fit_out in
  let fit_out :=
    if bool_decide (ff_w_decay self ≠ 0)
    then concatenate_cols fit_out (reshape_col (l2_norm_sq x))
    else fit_out in
  Ok fit_out.

End Apply.

End LesTools.

(** ** Instances on which the definitions run *)

(** A small deterministic generator: keys are counters, the uniform draws
    run through 0, 1/4, 1/2, 3/4 and the normal draws through -1, 0, 1. *)
Definition counter_uniform (k : nat) : Qc :=
  match (k mod 4)%nat with
  | 0%nat => 0
  | 1%nat => Q2Qc (1 # 4)
  | 2%nat => Q2Qc (1 # 2)
  | _ => Q2Qc (3 # 4)
  end.

Definition counter_normal (k : nat) : Qc :=
  match (k mod 3)%nat with
  | 0%nat => -1
  | 1%nat => 0
  | _ => 1
  end.

(** The four values of [counter_uniform] lie in [[0, 1)]. *)
Ltac counter_uniform_range :=
  unfold counter_uniform;
  match goal with
  | |- context [(?k mod 4)%nat] =>
      destruct (k mod 4)%nat as [|[|[|?]]]; split; by vm_compute
  end.

#[export] Program Instance counter_prng : PRNG := {|
  Key := nat;
  split k n := map (λ i, (2 * k + i + 1)%nat) (seq 0 n);
  uniform := counter_uniform;
  uniform_vec k n := map (λ i, counter_uniform (k + i)) (seq 0 n);
  normal_vec k n := map (λ i, counter_normal (k + i)) (seq 0 n);
  normal_mat k n d :=
    map (λ r, map (λ i, counter_normal (k + r + i)) (seq 0 d)) (seq 0 n)
|}.
Next Obligation. intros. simpl. by rewrite length_map, length_seq. Qed.
Next Obligation. intros k. simpl. counter_uniform_range. Qed.
Next Obligation. intros. simpl. by rewrite length_map, length_seq. Qed.
Next Obligation.
  intros. simpl. apply Forall_forall.
  intros u [i [-> _]]%list_elem_of_fmap. counter_uniform_range.
Qed.
Next Obligation. intros. simpl. by rewrite length_map, length_seq. Qed.
Next Obligation. intros. simpl. by rewrite length_map, length_seq. Qed.

(** Rational stand-ins for [exp] and [sqrt]: the second-order expansion of
    the exponential and one Newton step from 1 for the square root. *)
#[export] Instance rational_libm : Libm := {|
  exp x := 1 + x + x * x * half;
  sqrt x := (1 + x) * half
|}.

(** ** The spec's reading of [FitnessShaper.apply] *)

Module FitnessSpec.
Import Fitness.

Inductive trafo : Type := CenteredRank | ZScore | NormRange.

(** The transforms that a shaper has enabled, in the order of the source. *)
Definition enabled (self : FitnessShaper) : list trafo :=
  (if centered_rank self then [CenteredRank] else [])
  ++ (if z_score self then [ZScore] else [])
  ++ (if norm_range self then [NormRange] else []).

Section Steps.
Context `{Libm}.

(** Step 1: negate if [maximize]. *)
Definition negate_step (self : FitnessShaper) (fitness : list Qc)
  : list Qc :=
  if maximize self then map Qcopp fitness else fitness.

(** Step 2: if [w_decay > 0], add [w_decay * mean(solution_i^2)] to the
    fitness of member [i]. *)
Definition mean_square (solution : list Qc) : Qc :=
  Jnp.sum (map (λ x, x * x) solution) / Qc_of_nat (length solution).

Definition decay_step (self : FitnessShaper)
    (population : list (list Qc)) (fitness : list Qc) : list Qc :=
  if decide (0 < w_decay self)
  then zip_with (λ f solution, f + w_decay self * mean_square solution)
         fitness population
  else fitness.

(** Step 3: the single enabled transform, if any. *)
Definition run_trafo (t : trafo) (fitness : list Qc) : list Qc :=
  match t with
  | CenteredRank => centered_rank_trafo fitness
  | ZScore => z_score_trafo fitness
  | NormRange => range_norm_trafo fitness (-1) 1
  end.

Definition transform_step (self : FitnessShaper) (fitness : list Qc)
  : list Qc :=
  match enabled self with
  | [t] => run_trafo t fitness
  | _ => fitness
  end.

End Steps.
End FitnessSpec.

(** ** Repeated [ask] calls *)

Section AskMany.
Context `{PRNG} `{Libm}.

(** The state after one [_ask] call per key, each on the state that the
    previous call returned. *)
Definition sim_anneal_ask_many (self : SimAnneal.SimAnneal)
    (params : SimAnneal.Params) (keys : list Key) (state : SimAnneal.State)
  : SimAnneal.State :=
  foldl (λ st k, (SimAnneal._ask self k st params).2) state keys.

Definition simple_ga_ask_many (self : SimpleGA.SimpleGA)
    (params : SimpleGA.Params) (keys : list Key) (state : SimpleGA.State)
  : SimpleGA.State :=
  foldl (λ st k, (SimpleGA._ask self k st params).2) state keys.

End AskMany.

(** ** Notions used in the statements *)

(** The order of the indices by their values. *)
Definition key_le (key : nat → Qc) (i j : nat) : Prop := key i ≤ key j.

(** The number of members whose fitness is below [x]. *)
Definition count_below (x : Qc) (fitness : list Qc) : nat :=
  length (filter (λ y, y < x) fitness).

(** [rank/(N-1) - 0.5]. *)
Definition scaled_rank (N : nat) (rank : nat) : Qc :=
  Qc_of_nat rank / Qc_of_Z (Z.of_nat N - 1) - half.

(** The number of the three options that are enabled, that is, truthy. *)
Definition enabled_count (centered_rank z_score norm_range : Z) : nat :=
  length (filter (λ b, b = true)
            (Fitness.py_bool <$> [centered_rank; z_score; norm_range])).

(** [m] is the greater of [x] and [y]. *)
Definition is_max (m x y : Qc) : Prop := x ≤ m ∧ y ≤ m ∧ (m = x ∨ m = y).

(** [p] is one of the [num_elites] members of lowest fitness: it stands at a
    position below [num_elites] in the ascending order of fitness, and every
    member at a later position has a fitness at least as high. *)
Definition elite_member (self : SimpleGA.SimpleGA) (state : SimpleGA.State)
    (p : list Qc) : Prop :=
  ∃ j m,
    (j < SimpleGA.num_elites self)%nat
    ∧ Jnp.argsort (SimpleGA.fitness state) !! j = Some m
    ∧ SimpleGA.population state !! m = Some p
    ∧ ∀ k m', (SimpleGA.num_elites self ≤ k)%nat →
        Jnp.argsort (SimpleGA.fitness state) !! k = Some m' →
        Jnp.getitem (SimpleGA.fitness state) m
        ≤ Jnp.getitem (SimpleGA.fitness state) m'.

(** The best-difference column as the documentation of [norm_diff_best]
    describes it: the clipped fitness minus [best_fitness], divided by the
    range of these differences plus [1e-10], clipped to [[-1, 1]]. *)
Definition norm_diff_best_doc (fitness : list Qc) (best_fitness : Qc)
  : list Qc :=
  let fitness := map (λ x, Jnp.clip x (Some (- big)) (Some big)) fitness in
  let diff_best := map (λ x, x - best_fitness) fitness in
  map (λ d, Jnp.clip
              (d / (Jnp.nanmax diff_best - Jnp.nanmin diff_best + eps))
              (Some (-1)) (Some 1)) diff_best.

(** The columns that follow the indicator column, in their order, when the
    best-difference column is disabled. *)
Definition optional_columns `{FitnessShapingFns}
    (self : LesTools.FitnessFeatures) (x : list (list Qc))
    (fitness : list Qc) : list (list Qc) :=
  (if LesTools.ff_centered_rank self then [centered_rank fitness] else [])
  ++ (if LesTools.ff_z_score self then [standardize fitness] else [])
  ++ (if LesTools.ff_norm_range self then [normalize fitness (-1) 1] else [])
  ++ (if bool_decide (LesTools.ff_w_decay self ≠ 0) then [l2_norm_sq x]
      else []).

(** ** Inputs of the examples *)

(** Three distinct fitness values. *)
Definition fitness_3 : list Qc := [Qc_of_Z 7; Qc_of_Z (-2); Qc_of_Z 4].

(** Two members of two parameters, and a shaper that maximizes, penalizes
    the weights and ranks. *)
Definition population_2x2 : list (list Qc) :=
  [[Qc_of_Z 1; Qc_of_Z 3]; [Qc_of_Z 0; Qc_of_Z 2]].
Definition fitness_2 : list Qc := [Qc_of_Z 4; Qc_of_Z (-6)].
Definition shaper_rank_decay : Fitness.FitnessShaper :=
  {| Fitness.w_decay := 2; Fitness.maximize := true;
     Fitness.centered_rank := true; Fitness.z_score := false;
     Fitness.norm_range := false |}.

(** The example of the spec for the annealed search: the current fitness
    is 10 and the best of the generation is 5. *)
Definition sa_population : list (list Qc) :=
  [[Qc_of_Z 1; Qc_of_Z 1]; [Qc_of_Z 2; Qc_of_Z 0]; [Qc_of_Z 3; Qc_of_Z 3]].
Definition sa_fitness : list Qc := [Qc_of_Z 8; Qc_of_Z 5; Qc_of_Z 9].
Definition sa_state : SimAnneal.State :=
  {| SimAnneal.current_solution := [0; 0];
     SimAnneal.current_fitness := Qc_of_Z 10;
     SimAnneal.std := 1;
     SimAnneal.temperature := 1;
     SimAnneal.best_solution := [0; 0];
     SimAnneal.best_fitness := Qc_of_Z 10;
     SimAnneal.generation_counter := 3 |}.
Definition sa_params : SimAnneal.Params :=
  {| SimAnneal.std_init := 1;
     SimAnneal.std_decay := 1;
     SimAnneal.std_limit := 0;
     SimAnneal.temperature_init := 1;
     SimAnneal.temperature_limit := Q2Qc (1 # 10);
     SimAnneal.temperature_decay := Q2Qc (999 # 1000);
     SimAnneal.boltzmann_constant := Qc_of_Z 5 |}.
Definition sa_strategy : SimAnneal.SimAnneal :=
  {| SimAnneal.population_size := 3; SimAnneal.num_dims := 2 |}.

(** The example of the spec for the genetic search: four members, of which
    the two best are the elites, and no crossover. *)
Definition ga_strategy : SimpleGA.SimpleGA :=
  {| SimpleGA.population_size := 4; SimpleGA.num_dims := 2;
     SimpleGA.elite_ratio := half; SimpleGA.num_elites := 2 |}.
Definition ga_state : SimpleGA.State :=
  {| SimpleGA.population :=
       [[Qc_of_Z 3; Qc_of_Z 0]; [Qc_of_Z 1; Qc_of_Z 1];
        [Qc_of_Z 0; Qc_of_Z 2]; [Qc_of_Z 2; Qc_of_Z 2]];
     SimpleGA.fitness := [Qc_of_Z 9; Qc_of_Z 2; Qc_of_Z 4; Qc_of_Z 8];
     SimpleGA.std := 1;
     SimpleGA.best_solution := [Qc_of_Z 1; Qc_of_Z 1];
     SimpleGA.best_fitness := Qc_of_Z 2;
     SimpleGA.generation_counter := 1 |}.
Definition ga_params : SimpleGA.Params :=
  {| SimpleGA.crossover_rate := 0; SimpleGA.std_init := 1;
     SimpleGA.std_decay := 1; SimpleGA.std_limit := 0 |}.

(** ** Further parts of the sources *)

(** [SimAnneal._default_params] and [SimpleGA._default_params]. *)
Definition sim_anneal_default_params : SimAnneal.Params :=
  {| SimAnneal.std_init := 1;
     SimAnneal.std_decay := 1;
     SimAnneal.std_limit := 0;
     SimAnneal.temperature_init := 1;
     SimAnneal.temperature_limit := Q2Qc (1 # 10);
     SimAnneal.temperature_decay := Q2Qc (999 # 1000);
     SimAnneal.boltzmann_constant := Qc_of_Z 5 |}.

Definition simple_ga_default_params : SimpleGA.Params :=
  {| SimpleGA.crossover_rate := 0;
     SimpleGA.std_init := 1;
     SimpleGA.std_decay := 1;
     SimpleGA.std_limit := 0 |}.

(** A run of [tell] calls, one per generation; a generation is the key, the
    population and the fitness given to the call. *)
Section TellMany.
Context `{PRNG} `{Libm}.

Definition sim_anneal_tell_many (self : SimAnneal.SimAnneal)
    (params : SimAnneal.Params)
    (generations : list (Key * list (list Qc) * list Qc))
    (state : SimAnneal.State) : SimAnneal.State :=
  foldl (λ st g, SimAnneal._tell self g.1.1 g.1.2 g.2 st params) state
    generations.

Definition simple_ga_tell_many (self : SimpleGA.SimpleGA)
    (params : SimpleGA.Params)
    (generations : list (Key * list (list Qc) * list Qc))
    (state : SimpleGA.State) : SimpleGA.State :=
  foldl (λ st g, SimpleGA._tell self g.1.1 g.1.2 g.2 st params) state
    generations.

End TellMany.

(** The class [EvolutionPath] of [les_tools.py].  [paths] has one row per
    dimension and one column per timescale. *)
Module EvolutionPath.

Record EvolutionPath : Type := {
  num_dims : nat;
  timescales : list Qc
}.

Definition init (self : EvolutionPath) : list (list Qc) :=
  replicate (num_dims self) (replicate (length (timescales self)) 0).

(** The inner function of [update], on one column of [paths]. *)
Definition update_path (lr : Qc) (path diff : list Qc) : list Qc :=
  zip_with (λ p d, (1 - lr) * p + lr * d) path diff.

(** [paths[:, t]] and the stacking of columns along axis 1. *)
Definition column (paths : list (list Qc)) (t : nat) : list Qc :=
  map (λ row, Jnp.getitem row t) paths.
Definition stack_columns (n : nat) (cols : list (list Qc))
  : list (list Qc) :=
  map (λ d, map (λ col, Jnp.getitem col d) cols) (seq 0 n).

(** [jax.vmap(update_path, in_axes=(0, 1, None), out_axes=1)]: one call per
    timescale, on the column of that timescale. *)
Definition update (self : EvolutionPath) (paths : list (list Qc))
    (diff : list Qc) : list (list Qc) :=
  let cols :=
    zip_with (λ lr t, update_path lr (column paths t) diff)
      (timescales self) (seq 0 (length (timescales self))) in
  stack_columns (length paths) cols.

(** [n] updates with the same [diff]. *)
Definition update_many (self : EvolutionPath) (n : nat) (diff : list Qc)
    (paths : list (list Qc)) : list (list Qc) :=
  Nat.iter n (λ ps, update self ps diff) paths.

End EvolutionPath.

(** ** Further notions used in the statements *)

(** The order that a stable sort by [key] puts on the indices. *)
Definition stable_lt (key : nat → Qc) (i j : nat) : Prop :=
  key i < key j ∨ (key i = key j ∧ (i < j)%nat).

(** [EvolutionPath.update] written row by row. *)
Definition evolution_path_update_rows (self : EvolutionPath.EvolutionPath)
    (paths : list (list Qc)) (diff : list Qc) : list (list Qc) :=
  zip_with
    (λ row d, zip_with (λ lr p, (1 - lr) * p + lr * d)
                (EvolutionPath.timescales self) row)
    paths diff.

(** The entries after [n] updates from zero with the same [diff]. *)
Definition evolution_path_after (self : EvolutionPath.EvolutionPath)
    (n : nat) (diff : list Qc) : list (list Qc) :=
  map (λ dd, map (λ lr, (1 - (1 - lr) ^ n) * dd)
               (EvolutionPath.timescales self)) diff.

(** ** Further inputs of the examples *)

(** A shaper that only penalizes the weights, and one that maximizes and
    ranks. *)
Definition shaper_decay : Fitness.FitnessShaper :=
  {| Fitness.w_decay := 2; Fitness.maximize := false;
     Fitness.centered_rank := false; Fitness.z_score := false;
     Fitness.norm_range := false |}.

Definition shaper_max_rank : Fitness.FitnessShaper :=
  {| Fitness.w_decay := 0; Fitness.maximize := true;
     Fitness.centered_rank := true; Fitness.z_score := false;
     Fitness.norm_range := false |}.

(** Fitness values with ties. *)
Definition fitness_ties : list Qc :=
  [Qc_of_Z 3; Qc_of_Z 1; Qc_of_Z 3; Qc_of_Z 1].

(** The genetic example with a step size of 0, and with a single elite. *)
Definition ga_state_std_0 : SimpleGA.State :=
  {| SimpleGA.population := SimpleGA.population ga_state;
     SimpleGA.fitness := SimpleGA.fitness ga_state;
     SimpleGA.std := 0;
     SimpleGA.best_solution := SimpleGA.best_solution ga_state;
     SimpleGA.best_fitness := SimpleGA.best_fitness ga_state;
     SimpleGA.generation_counter := 1 |}.

Definition ga_single_elite : SimpleGA.SimpleGA :=
  {| SimpleGA.population_size := 4; SimpleGA.num_dims := 2;
     SimpleGA.elite_ratio := half; SimpleGA.num_elites := 1 |}.

(** A generation whose least fitness is held by two members. *)
Definition sa_fitness_ties : list Qc :=
  [Qc_of_Z 8; Qc_of_Z 5; Qc_of_Z 5].

(** Evolution paths of two dimensions and two timescales. *)
Definition ep_two_scales : EvolutionPath.EvolutionPath :=
  {| EvolutionPath.num_dims := 2;
     EvolutionPath.timescales := [Q2Qc (1 # 10); half] |}.
Definition ep_diff : list Qc := [Qc_of_Z 4; Qc_of_Z (-2)].

(** For the examples, the transforms of [fitness.py] stand in for those of
    [fitness_shaping.py]. *)
#[export] Instance core_fitness_shaping : FitnessShapingFns := {|
  centered_rank := Fitness.centered_rank_trafo;
  standardize := @Fitness.z_score_trafo rational_libm;
  normalize := Fitness.range_norm_trafo;
  l2_norm_sq := Fitness.compute_l2_norm
|}.

Definition features_rank_range : LesTools.FitnessFeatures :=
  {| LesTools.ff_centered_rank := true; LesTools.ff_z_score := false;
     LesTools.ff_w_decay := 0; LesTools.ff_diff_best := false;
     LesTools.ff_norm_range := true; LesTools.ff_maximize := false |}.

(** * Properties *)

(** Closed facts on rationals, lists and options are decided by evaluation. *)
Ltac by_eval := apply (bool_decide_unpack _); vm_compute; exact I.

(** ** Order facts on the rationals *)

Lemma Qc_lt_le_cases (x y : Qc) : x < y ∨ y ≤ x.
Proof. destruct (Qclt_le_dec x y); auto. Qed.

Lemma Qc_of_nat_le (n m : nat) : (n ≤ m)%nat → Qc_of_nat n ≤ Qc_of_nat m.
Proof. intros. unfold Qc_of_nat. apply (proj1 (Z2Qc_inj_le _ _)). lia. Qed.

Lemma Qc_of_nat_lt (n m : nat) : (n < m)%nat → Qc_of_nat n < Qc_of_nat m.
Proof. intros. unfold Qc_of_nat. apply (proj1 (Z2Qc_inj_lt _ _)). lia. Qed.

Lemma Qc_of_nat_0 : Qc_of_nat 0 = 0.
Proof. by_eval. Qed.

Lemma Qc_of_nat_inj (n m : nat) : Qc_of_nat n = Qc_of_nat m → n = m.
Proof. intros E%Z2Qc_inj. lia. Qed.

Lemma maximum_ge_l x y : x ≤ Jnp.maximum x y.
Proof.
  unfold Jnp.maximum. destruct (decide (x < y));
    [by apply Qclt_le_weak | apply Qcle_refl].
Qed.

Lemma maximum_ge_r x y : y ≤ Jnp.maximum x y.
Proof.
  unfold Jnp.maximum. destruct (decide (x < y));
    [apply Qcle_refl | by apply Qcnot_lt_le].
Qed.

Lemma maximum_cases x y : Jnp.maximum x y = x ∨ Jnp.maximum x y = y.
Proof. unfold Jnp.maximum. destruct (decide (x < y)); auto. Qed.

(** ** [argsort] gives a sorted permutation of the indices *)

Section Argsort.
Variable key : nat → Qc.

Lemma insert_by_Permutation i l : Jnp.insert_by key i l ≡ₚ i :: l.
Proof.
  induction l as [|j l IH]; simpl; [done|].
  destruct (decide (key i ≤ key j)); [done|].
  rewrite IH. apply Permutation_swap.
Qed.

Lemma insert_by_sorted i l :
  StronglySorted (key_le key) l →
  StronglySorted (key_le key) (Jnp.insert_by key i l).
Proof.
  induction 1 as [|j l Hs IH Hall]; simpl.
  - repeat constructor.
  - destruct (decide (key i ≤ key j)) as [Hle|Hnle].
    + constructor; [by constructor|].
      constructor; [done|].
      eapply Forall_impl; [exact Hall|].
      intros k Hk. unfold key_le in *. by eapply Qcle_trans.
    + constructor; [done|].
      rewrite insert_by_Permutation. constructor; [|done].
      unfold key_le. apply Qclt_le_weak. by apply Qcnot_le_lt.
Qed.

Lemma foldr_insert_by_Permutation l :
  foldr (Jnp.insert_by key) [] l ≡ₚ l.
Proof.
  induction l as [|i l IH]; simpl; [done|].
  by rewrite insert_by_Permutation, IH.
Qed.

Lemma foldr_insert_by_sorted l :
  StronglySorted (key_le key) (foldr (Jnp.insert_by key) [] l).
Proof.
  induction l as [|i l IH]; simpl; [constructor|].
  by apply insert_by_sorted.
Qed.
End Argsort.

Lemma argsort_Permutation a : Jnp.argsort a ≡ₚ seq 0 (length a).
Proof. apply foldr_insert_by_Permutation. Qed.

Lemma argsort_sorted a :
  StronglySorted (key_le (Jnp.getitem a)) (Jnp.argsort a).
Proof. apply foldr_insert_by_sorted. Qed.

Lemma argsort_length a : length (Jnp.argsort a) = length a.
Proof. by rewrite argsort_Permutation, length_seq. Qed.

Lemma argsort_NoDup a : NoDup (Jnp.argsort a).
Proof. rewrite argsort_Permutation. apply NoDup_seq. Qed.

Lemma argsort_lt a k i : Jnp.argsort a !! k = Some i → (i < length a)%nat.
Proof.
  intros Hk. apply list_elem_of_lookup_2 in Hk.
  rewrite argsort_Permutation in Hk. apply list_elem_of_In, in_seq in Hk. lia.
Qed.

Lemma take_seq_self (a : list Qc) : Jnp.take a (seq 0 (length a)) = a.
Proof.
  apply list_eq. intros i. unfold Jnp.take.
  rewrite list_lookup_fmap.
  destruct (decide (i < length a)%nat) as [Hlt|Hge].
  - rewrite lookup_seq_lt by done. simpl. unfold Jnp.getitem.
    destruct (lookup_lt_is_Some_2 a i Hlt) as [x Hx]. by rewrite Hx.
  - rewrite lookup_seq_ge by lia. simpl.
    symmetry. apply lookup_ge_None. lia.
Qed.

(** The values in the order of [argsort] are the values, rearranged. *)
Lemma take_argsort_Permutation a : Jnp.take a (Jnp.argsort a) ≡ₚ a.
Proof.
  rewrite <- (take_seq_self a) at 3. unfold Jnp.take.
  apply fmap_Permutation, argsort_Permutation.
Qed.

Lemma take_argsort_sorted a :
  StronglySorted Qcle (Jnp.take a (Jnp.argsort a)).
Proof.
  unfold Jnp.take.
  eapply StronglySorted_fmap; [|apply argsort_sorted].
  by intros x y.
Qed.

(** ** [at[idx].set] with distinct indices, and [ranksort] *)

Lemma at_set_cons {A} (base : list A) i v idx vals :
  Jnp.at_set base (i :: idx) (v :: vals) = Jnp.at_set (<[i:=v]> base) idx vals.
Proof. done. Qed.

Lemma at_set_length {A} (base : list A) idx vals :
  length (Jnp.at_set base idx vals) = length base.
Proof.
  revert base vals. induction idx as [|i idx IH]; intros base [|v vals];
    try done.
  by rewrite at_set_cons, IH, length_insert.
Qed.

Lemma at_set_lookup_notin {A} (base : list A) idx vals i :
  i ∉ idx → Jnp.at_set base idx vals !! i = base !! i.
Proof.
  revert base vals. induction idx as [|j idx IH]; intros base [|v vals] Hi;
    try done.
  apply not_elem_of_cons in Hi as [Hne Hi].
  rewrite at_set_cons, IH by done.
  by apply list_lookup_insert_ne.
Qed.

Lemma at_set_lookup {A} (base : list A) idx vals k i v :
  NoDup idx → idx !! k = Some i → vals !! k = Some v →
  (i < length base)%nat →
  Jnp.at_set base idx vals !! i = Some v.
Proof.
  revert base vals k.
  induction idx as [|j idx IH]; intros base [|w vals] k Hnd Hi Hv Hlt;
    try done.
  apply NoDup_cons in Hnd as [Hj Hnd].
  rewrite at_set_cons. destruct k as [|k]; simplify_eq/=.
  - rewrite at_set_lookup_notin by done. by apply list_lookup_insert_eq.
  - eapply IH; eauto. by rewrite length_insert.
Qed.

(** [ranksort] inverts [argsort]: the member at position [k] of the sorted
    order gets rank [k]. *)
Lemma ranksort_lookup fitness k i :
  Jnp.argsort fitness !! k = Some i → Fitness.ranksort fitness !! i = Some k.
Proof.
  intros Hk. unfold Fitness.ranksort.
  eapply at_set_lookup; eauto using argsort_NoDup.
  - apply lookup_seq. split; [done|].
    apply lookup_lt_Some in Hk. by rewrite argsort_length in Hk.
  - rewrite argsort_length. by eapply argsort_lt.
Qed.

Lemma ranksort_length fitness :
  length (Fitness.ranksort fitness) = length fitness.
Proof. unfold Fitness.ranksort. by rewrite at_set_length, argsort_length. Qed.

Lemma ranksort_Permutation fitness :
  Fitness.ranksort fitness ≡ₚ seq 0 (length fitness).
Proof.
  set (g := λ i, default 0%nat (Fitness.ranksort fitness !! i)).
  assert (Fitness.ranksort fitness = g <$> seq 0 (length fitness)) as ->.
  { apply list_eq. intros i. rewrite list_lookup_fmap.
    destruct (decide (i < length fitness)%nat) as [Hlt|Hge].
    - rewrite lookup_seq_lt by done. simpl. unfold g.
      destruct (lookup_lt_is_Some_2 (Fitness.ranksort fitness) i) as [r Hr];
        [by rewrite ranksort_length|]. by rewrite Hr.
    - rewrite lookup_seq_ge by lia. simpl.
      apply lookup_ge_None. rewrite ranksort_length. lia. }
  rewrite <- (argsort_Permutation fitness) at 1.
  assert (g <$> Jnp.argsort fitness = seq 0 (length fitness)) as ->; [|done].
  apply list_eq. intros k. rewrite list_lookup_fmap.
  destruct (Jnp.argsort fitness !! k) as [i|] eqn:Hk; simpl.
  - unfold g. rewrite (ranksort_lookup _ _ _ Hk). simpl.
    symmetry. apply lookup_seq. split; [done|].
    apply lookup_lt_Some in Hk. by rewrite argsort_length in Hk.
  - symmetry. apply lookup_seq_ge.
    apply lookup_ge_None in Hk. rewrite argsort_length in Hk. lia.
Qed.

(** ** The rank counts the smaller values *)

Lemma filter_below_none (l : list Qc) x :
  Forall (λ z, x ≤ z) l → filter (λ y, y < x) l = [].
Proof.
  induction 1 as [|z l Hz _ IH]; [done|].
  rewrite filter_cons_False; [done|]. by apply Qcle_not_lt.
Qed.

Lemma filter_below_sorted (l : list Qc) k x :
  StronglySorted Qcle l → NoDup l → l !! k = Some x →
  filter (λ y, y < x) l = take k l.
Proof.
  intros Hs. revert k. induction Hs as [|y l Hs IH Hall]; intros k Hnd Hk;
    [done|].
  apply NoDup_cons in Hnd as [Hy Hnd].
  destruct k as [|k]; simplify_eq/=.
  - rewrite filter_cons_False by apply (irreflexivity Qclt).
    by apply filter_below_none.
  - assert (y < x) as Hlt.
    { rewrite Forall_forall in Hall.
      apply list_elem_of_lookup_2 in Hk as Hin.
      destruct (Qcle_lt_or_eq _ _ (Hall _ Hin)) as [Hlt | Heq]; [done|].
      subst y.
      by destruct Hy. }
    rewrite filter_cons_True by done. f_equal. by apply IH.
Qed.

Lemma count_below_rank fitness k i x :
  NoDup fitness → Jnp.argsort fitness !! k = Some i →
  fitness !! i = Some x → count_below x fitness = k.
Proof.
  intros Hnd Hk Hx. unfold count_below.
  rewrite <- (take_argsort_Permutation fitness) at 1.
  rewrite (filter_below_sorted _ k).
  - rewrite length_take. unfold Jnp.take.
    rewrite length_map, argsort_length.
    apply lookup_lt_Some in Hk. rewrite argsort_length in Hk. lia.
  - apply take_argsort_sorted.
  - by rewrite take_argsort_Permutation.
  - unfold Jnp.take. rewrite list_lookup_fmap, Hk. simpl.
    unfold Jnp.getitem. by rewrite Hx.
Qed.

Lemma StronglySorted_lookup_le (l : list Qc) i j a b :
  StronglySorted Qcle l → l !! i = Some a → l !! j = Some b →
  (i < j)%nat → a ≤ b.
Proof.
  intros Hs. revert i j.
  induction Hs as [|y l Hs IH Hall]; intros i j Hi Hj Hij;
    [done|].
  destruct j as [|j]; [lia|]. destruct i as [|i]; simplify_eq/=.
  - rewrite Forall_forall in Hall. eapply Hall, list_elem_of_lookup_2, Hj.
  - eapply IH; eauto. lia.
Qed.

(** Every member has a position in the sorted order. *)
Lemma argsort_position a i :
  (i < length a)%nat → ∃ k, Jnp.argsort a !! k = Some i.
Proof.
  intros Hlt. apply list_elem_of_lookup_1.
  rewrite argsort_Permutation. apply list_elem_of_In, in_seq. lia.
Qed.

(** ** Centered ranks *)

Lemma centered_rank_trafo_ranksort fitness :
  Fitness.centered_rank_trafo fitness
  = scaled_rank (length fitness) <$> Fitness.ranksort fitness.
Proof. unfold Fitness.centered_rank_trafo. by rewrite map_map. Qed.

Lemma scaled_rank_first N : scaled_rank N 0 = - half.
Proof.
  unfold scaled_rank. rewrite Qc_of_nat_0. unfold Qcdiv.
  rewrite Qcmult_0_l.
  by_eval.
Qed.

Lemma scaled_rank_last N : (2 ≤ N)%nat → scaled_rank N (N - 1) = half.
Proof.
  intros HN. unfold scaled_rank, Qc_of_nat.
  replace (Z.of_nat (N - 1)) with (Z.of_nat N - 1)%Z by lia.
  unfold Qcdiv. rewrite Qcmult_inv_r.
  - by_eval.
  - rewrite <- Z2Qc_inj_0. intros E%Z2Qc_inj. lia.
Qed.

Lemma scaled_rank_range N r :
  (2 ≤ N)%nat → (r < N)%nat →
  - half ≤ scaled_rank N r ∧ scaled_rank N r ≤ half.
Proof.
  intros HN Hr. unfold scaled_rank.
  assert (0 < Qc_of_Z (Z.of_nat N - 1)) as Hpos.
  { rewrite <- Z2Qc_inj_0. apply (proj1 (Z2Qc_inj_lt _ _)). lia. }
  set (d := Qc_of_Z (Z.of_nat N - 1)) in *.
  assert (0 ≤ Qc_of_nat r / d) as H0.
  { apply Qcmult_nonneg_nonneg.
    - unfold Qc_of_nat. rewrite <- Z2Qc_inj_0.
      apply (proj1 (Z2Qc_inj_le _ _)). lia.
    - apply Qclt_le_weak. by apply Qcinv_pos. }
  assert (Qc_of_nat r / d ≤ 1) as H1.
  { rewrite <- (Qcmult_inv_r d) by (intros E; rewrite E in Hpos;
      by apply (irreflexivity Qclt) in Hpos).
    apply Qcmult_le_mono_nonneg_r.
    - apply Qclt_le_weak. by apply Qcinv_pos.
    - unfold d, Qc_of_nat. apply (proj1 (Z2Qc_inj_le _ _)). lia. }
  split.
  - replace (- half) with (0 - half) by ring.
    by apply (proj1 (Qcplus_le_mono_r _ _ _)).
  - replace half with (1 - half) at 2 by (by_eval).
    by apply (proj1 (Qcplus_le_mono_r _ _ _)).
Qed.

(** The rank of a member with distinct fitness values is its position in the
    ascending order, which is the number of members below it. *)
Lemma ranksort_count_below fitness i x :
  NoDup fitness → fitness !! i = Some x →
  Fitness.ranksort fitness !! i = Some (count_below x fitness)
  ∧ Jnp.take fitness (Jnp.argsort fitness) !! count_below x fitness = Some x.
Proof.
  intros Hnd Hx.
  destruct (argsort_position fitness i) as [k Hk];
    [by eapply lookup_lt_Some|].
  rewrite (count_below_rank fitness k i x) by done. split.
  - by apply ranksort_lookup.
  - unfold Jnp.take. rewrite list_lookup_fmap, Hk. simpl.
    unfold Jnp.getitem. by rewrite Hx.
Qed.

Lemma count_below_least fitness x :
  (∀ y, y ∈ fitness → x ≤ y) → count_below x fitness = 0%nat.
Proof.
  intros Hmin. unfold count_below.
  rewrite filter_below_none; [done|]. by apply Forall_forall.
Qed.

Lemma count_below_greatest fitness i x :
  NoDup fitness → fitness !! i = Some x → (∀ y, y ∈ fitness → y ≤ x) →
  count_below x fitness = (length fitness - 1)%nat.
Proof.
  intros Hnd Hx Hmax.
  destruct (ranksort_count_below fitness i x Hnd Hx) as [_ Hpos].
  set (sorted := Jnp.take fitness (Jnp.argsort fitness)) in *.
  assert (length sorted = length fitness) as Hlen
    by (unfold sorted; apply Permutation_length, take_argsort_Permutation).
  assert (count_below x fitness < length fitness)%nat as Hlt
    by (rewrite <- Hlen; by eapply lookup_lt_Some).
  destruct (lookup_lt_is_Some_2 sorted (length fitness - 1)) as [z Hz];
    [lia|].
  destruct (decide (count_below x fitness = length fitness - 1)%nat)
    as [|Hne]; [done|].
  assert (x = z) as ->.
  { apply (anti_symm Qcle).
    - eapply (StronglySorted_lookup_le sorted); eauto using take_argsort_sorted.
      lia.
    - apply Hmax. unfold sorted in Hz.
      rewrite <- (take_argsort_Permutation fitness).
      by eapply list_elem_of_lookup_2. }
  apply (NoDup_lookup sorted _ _ z); [|done|done].
  unfold sorted. by rewrite take_argsort_Permutation.
Qed.

(** C4. For a fitness vector of [N >= 2] pairwise distinct values, the
    centered-rank transform gives member [i] the value [rank/(N-1) - 0.5],
    where [rank] is the 0-based position of its fitness in the ascending
    order (the number of members below it); the outputs are a permutation of
    [0, ..., N-1] scaled in this way and lie in [-0.5, 0.5]; the member with
    the lowest fitness gets [-0.5] and the one with the highest [+0.5]. *)
Theorem centered_rank_trafo_distinct (fitness : list Qc) :
  (2 ≤ length fitness)%nat → NoDup fitness →
  let N := length fitness in
  let out := Fitness.centered_rank_trafo fitness in
  let sorted := Jnp.take fitness (Jnp.argsort fitness) in
  length out = N
  ∧ StronglySorted Qcle sorted ∧ sorted ≡ₚ fitness
  ∧ (∀ i x, fitness !! i = Some x →
       sorted !! count_below x fitness = Some x
       ∧ out !! i = Some (scaled_rank N (count_below x fitness)))
  ∧ out ≡ₚ scaled_rank N <$> seq 0 N
  ∧ Forall (λ v, - half ≤ v ∧ v ≤ half) out
  ∧ (∀ i x, fitness !! i = Some x → (∀ y, y ∈ fitness → x ≤ y) →
       out !! i = Some (- half))
  ∧ (∀ i x, fitness !! i = Some x → (∀ y, y ∈ fitness → y ≤ x) →
       out !! i = Some half).
Proof.
  intros HN Hnd N out sorted. subst N out sorted.
  rewrite centered_rank_trafo_ranksort.
  set (N := length fitness) in *.
  assert (∀ i x, fitness !! i = Some x →
    (scaled_rank N <$> Fitness.ranksort fitness) !! i
    = Some (scaled_rank N (count_below x fitness))) as Hout.
  { intros i x Hx. rewrite list_lookup_fmap.
    destruct (ranksort_count_below fitness i x Hnd Hx) as [-> _]. done. }
  split_and!.
  - by rewrite length_fmap, ranksort_length.
  - apply take_argsort_sorted.
  - apply take_argsort_Permutation.
  - intros i x Hx. split; [|by apply Hout].
    by destruct (ranksort_count_below fitness i x Hnd Hx).
  - apply fmap_Permutation, ranksort_Permutation.
  - rewrite ranksort_Permutation. fold N. apply Forall_fmap, Forall_forall.
    intros r Hr%list_elem_of_In%in_seq. simpl.
    apply scaled_rank_range; [done|lia].
  - intros i x Hx Hmin. rewrite (Hout i x Hx), count_below_least by done.
    by rewrite scaled_rank_first.
  - intros i x Hx Hmax.
    rewrite (Hout i x Hx), (count_below_greatest fitness i x) by done.
    by rewrite scaled_rank_last.
Qed.

Lemma centered_rank_trafo_distinct_witness :
  Fitness.centered_rank_trafo fitness_3 !! 1%nat = Some (- half)
  ∧ Fitness.centered_rank_trafo fitness_3 !! 0%nat = Some half.
Proof.
  assert (2 ≤ length fitness_3)%nat as HN by (simpl; lia).
  assert (NoDup fitness_3) as Hnd by (by_eval).
  destruct (centered_rank_trafo_distinct fitness_3 HN Hnd)
    as (_ & _ & _ & _ & _ & _ & Hlow & Hhigh).
  split.
  - apply (Hlow 1%nat (Qc_of_Z (-2))); [done|].
    intros y Hy. revert y Hy. apply Forall_forall. by_eval.
  - apply (Hhigh 0%nat (Qc_of_Z 7)); [done|].
    intros y Hy. revert y Hy. apply Forall_forall. by_eval.
Defined.

(** ** Construction of a [FitnessShaper] *)

Lemma init_no_selector cr zs nr w mx ft :
  (∀ s, ft = Some s → s ∉ Fitness.trafo_names) →
  Fitness.__init__ cr zs nr w mx ft
  = if bool_decide
         (Fitness.num_options_on (Fitness.py_bool cr) (Fitness.py_bool zs)
            (Fitness.py_bool nr) < 2)%Z
    then Ok {| Fitness.w_decay := w;
               Fitness.maximize := Fitness.py_bool mx;
               Fitness.centered_rank := Fitness.py_bool cr;
               Fitness.z_score := Fitness.py_bool zs;
               Fitness.norm_range := Fitness.py_bool nr |}
    else Raise (AssertionError "Only use one fitness shaping transformation.").
Proof.
  intros Hft. unfold Fitness.__init__. destruct ft as [s|]; [|done].
  by rewrite bool_decide_eq_false_2 by (by apply Hft).
Qed.

(** C5. Without a selector among the four names, [FitnessShaper.__init__]
    raises as soon as more than one of [centered_rank], [z_score],
    [norm_range] is enabled, so that no object exists on which [apply] could
    be called; with at most one enabled it returns the shaper with these
    options. *)
Theorem init_at_most_one_trafo cr zs nr w mx ft :
  (∀ s, ft = Some s → s ∉ Fitness.trafo_names) →
  ((1 < enabled_count cr zs nr)%nat →
     ∃ msg, Fitness.__init__ cr zs nr w mx ft = Raise (AssertionError msg))
  ∧ ((enabled_count cr zs nr ≤ 1)%nat →
     Fitness.__init__ cr zs nr w mx ft
     = Ok {| Fitness.w_decay := w;
             Fitness.maximize := Fitness.py_bool mx;
             Fitness.centered_rank := Fitness.py_bool cr;
             Fitness.z_score := Fitness.py_bool zs;
             Fitness.norm_range := Fitness.py_bool nr |}).
Proof.
  intros Hft. rewrite (init_no_selector _ _ _ _ _ _ Hft).
  unfold enabled_count. simpl.
  destruct (Fitness.py_bool cr), (Fitness.py_bool zs), (Fitness.py_bool nr);
    vm_compute; split; intros Hn; try lia; try done; by eexists.
Qed.

Lemma init_at_most_one_trafo_witness :
  (∃ msg, Fitness.__init__ 1 1 0 0 0 None = Raise (AssertionError msg))
  ∧ Fitness.__init__ 0 1 0 0 0 None
    = Ok {| Fitness.w_decay := 0; Fitness.maximize := false;
            Fitness.centered_rank := false; Fitness.z_score := true;
            Fitness.norm_range := false |}.
Proof.
  split.
  - apply (init_at_most_one_trafo 1 1 0 0 0 None); [done|].
    vm_compute. lia.
  - apply (init_at_most_one_trafo 0 1 0 0 0 None); [done|].
    vm_compute. lia.
Defined.

(** C10. When [fitness_trafo] is one of the four names, the three boolean
    arguments are ignored: construction succeeds whatever their values, and
    the enabled transform is the one that the string names (none for
    ["raw"]). *)
Theorem init_selector_overrides cr zs nr w mx (s : string) :
  s ∈ Fitness.trafo_names →
  Fitness.__init__ cr zs nr w mx (Some s)
  = Ok {| Fitness.w_decay := w;
          Fitness.maximize := Fitness.py_bool mx;
          Fitness.centered_rank := bool_decide (s = "centered_rank"%string);
          Fitness.z_score := bool_decide (s = "z_score"%string);
          Fitness.norm_range := bool_decide (s = "norm_range"%string) |}.
Proof.
  intros Hs. unfold Fitness.__init__.
  rewrite bool_decide_eq_true_2 by done.
  unfold Fitness.trafo_names in Hs.
  repeat (apply elem_of_cons in Hs as [-> | Hs]; [done|]).
  by apply elem_of_nil in Hs.
Qed.

Lemma init_selector_overrides_witness :
  Fitness.__init__ 1 1 0 0 0 (Some "raw"%string)
  = Ok {| Fitness.w_decay := 0; Fitness.maximize := false;
          Fitness.centered_rank := false; Fitness.z_score := false;
          Fitness.norm_range := false |}.
Proof.
  apply (init_selector_overrides 1 1 0 0 0 "raw"). by_eval.
Defined.

(** ** [FitnessShaper.apply] *)

Lemma init_Ok_options cr zs nr w mx ft self :
  Fitness.__init__ cr zs nr w mx ft = Ok self →
  (Fitness.num_options_on (Fitness.centered_rank self) (Fitness.z_score self)
     (Fitness.norm_range self) < 2)%Z.
Proof.
  unfold Fitness.__init__.
  destruct (match ft with
            | Some s =>
                if bool_decide (s ∈ Fitness.trafo_names)
                then (bool_decide (s = "centered_rank"%string),
                      bool_decide (s = "z_score"%string),
                      bool_decide (s = "norm_range"%string))
                else (Fitness.py_bool cr, Fitness.py_bool zs,
                      Fitness.py_bool nr)
            | None => (Fitness.py_bool cr, Fitness.py_bool zs,
                       Fitness.py_bool nr)
            end) as [[b1 b2] b3].
  case_bool_decide; [|done]. by intros [= <-].
Qed.

Lemma opp_as_mult (x : Qc) : (-1) * x = - x.
Proof. ring. Qed.

Lemma mean_square_nanmean (row : list Qc) :
  Jnp.nanmean (map (λ x, x * x) row) = FitnessSpec.mean_square row.
Proof.
  unfold Jnp.nanmean, FitnessSpec.mean_square. by rewrite length_map.
Qed.

Section FitnessApply.
Context `{Libm}.

Lemma apply_negate (self : Fitness.FitnessShaper) fitness :
  (if Fitness.maximize self then map (λ f, (-1) * f) fitness else fitness)
  = FitnessSpec.negate_step self fitness.
Proof.
  unfold FitnessSpec.negate_step. destruct (Fitness.maximize self); [|done].
  apply map_ext. intros x. apply opp_as_mult.
Qed.

Lemma apply_decay (self : Fitness.FitnessShaper) population fitness :
  (if bool_decide (0 < Fitness.w_decay self)
   then zip_with Qcplus fitness
          (map (λ n, Fitness.w_decay self * n)
             (Fitness.compute_l2_norm population))
   else fitness)
  = FitnessSpec.decay_step self population fitness.
Proof.
  unfold FitnessSpec.decay_step. case_bool_decide; case_decide; try done.
  unfold Fitness.compute_l2_norm. rewrite map_map.
  revert population. induction fitness as [|f fitness IH];
    intros [|row population]; try done.
  simpl. by rewrite IH, mean_square_nanmean.
Qed.

(** C3. On a shaper that [__init__] has built, [apply] is the composition
    of three steps in this order: negation if [maximize]; if [w_decay > 0],
    the addition of [w_decay * mean(solution_i^2)] to the fitness of each
    member [i]; the single enabled transform among centered rank, z-score
    and range normalization, if there is one. *)
Theorem apply_is_ordered_composition cr zs nr w mx ft self population
    fitness :
  Fitness.__init__ cr zs nr w mx ft = Ok self →
  (length (FitnessSpec.enabled self) ≤ 1)%nat
  ∧ Fitness.apply self population fitness
    = FitnessSpec.transform_step self
        (FitnessSpec.decay_step self population
           (FitnessSpec.negate_step self fitness)).
Proof.
  intros Hinit%init_Ok_options. unfold Fitness.apply.
  rewrite apply_negate, apply_decay.
  unfold FitnessSpec.transform_step, FitnessSpec.enabled.
  destruct (Fitness.centered_rank self), (Fitness.z_score self),
    (Fitness.norm_range self); simpl in *; try done; try lia;
    split; (lia || done).
Qed.

End FitnessApply.

Lemma apply_is_ordered_composition_witness :
  Fitness.apply shaper_rank_decay population_2x2 fitness_2
  = FitnessSpec.transform_step shaper_rank_decay
      (FitnessSpec.decay_step shaper_rank_decay population_2x2
         (FitnessSpec.negate_step shaper_rank_decay fitness_2)).
Proof.
  apply (apply_is_ordered_composition 1 0 0 2 1 None shaper_rank_decay
           population_2x2 fitness_2).
  reflexivity.
Defined.

Example apply_shaper_rank_decay :
  Fitness.apply shaper_rank_decay population_2x2 fitness_2 = [- half; half].
Proof. by_eval. Qed.

(** ** What [tell] updates and what [ask] keeps *)

Lemma clip_min_is_max x lo : is_max (Jnp.clip x (Some lo) None) x lo.
Proof.
  unfold Jnp.clip. split_and!;
    [apply maximum_ge_l | apply maximum_ge_r | apply maximum_cases].
Qed.

Section TellAndAsk.
Context `{PRNG} `{Libm}.

(** C6. Whatever the population, the fitness and the key, and so whether
    or not the move is accepted, [SimAnneal._tell] returns
    [std' = max(std * std_decay, std_limit)] and
    [temperature' = max(temperature * temperature_decay,
    temperature_limit)]; both stay at or above their limits. *)
Theorem sim_anneal_tell_decays self key population fitness state params :
  let state' := SimAnneal._tell self key population fitness state params in
  is_max (SimAnneal.std state')
    (SimAnneal.std state * SimAnneal.std_decay params)
    (SimAnneal.std_limit params)
  ∧ is_max (SimAnneal.temperature state')
      (SimAnneal.temperature state * SimAnneal.temperature_decay params)
      (SimAnneal.temperature_limit params)
  ∧ SimAnneal.std_limit params ≤ SimAnneal.std state'
  ∧ SimAnneal.temperature_limit params ≤ SimAnneal.temperature state'.
Proof.
  simpl. split_and!; try apply clip_min_is_max; apply maximum_ge_r.
Qed.

(** C7. [SimpleGA._tell] stores the given population and fitness as they
    are, sets [std' = max(std * std_decay, std_limit)] and leaves the other
    fields alone; apart from the stored fitness, the result is the same for
    any two fitness vectors and keys. *)
Theorem simple_ga_tell_stores self key population fitness state params :
  let state' := SimpleGA._tell self key population fitness state params in
  SimpleGA.population state' = population
  ∧ SimpleGA.fitness state' = fitness
  ∧ is_max (SimpleGA.std state')
      (SimpleGA.std state * SimpleGA.std_decay params)
      (SimpleGA.std_limit params)
  ∧ SimpleGA.best_solution state' = SimpleGA.best_solution state
  ∧ SimpleGA.best_fitness state' = SimpleGA.best_fitness state
  ∧ SimpleGA.generation_counter state' = SimpleGA.generation_counter state
  ∧ ∀ key2 fitness2,
      let state2 :=
        SimpleGA._tell self key2 population fitness2 state params in
      state2
      = {| SimpleGA.population := SimpleGA.population state';
           SimpleGA.fitness := fitness2;
           SimpleGA.std := SimpleGA.std state';
           SimpleGA.best_solution := SimpleGA.best_solution state';
           SimpleGA.best_fitness := SimpleGA.best_fitness state';
           SimpleGA.generation_counter :=
             SimpleGA.generation_counter state' |}.
Proof. simpl. split_and!; try done. apply clip_min_is_max. Qed.

(** ** [ask] keeps the state *)

Lemma sim_anneal_ask_state self key state params :
  (SimAnneal._ask self key state params).2 = state.
Proof. done. Qed.

Lemma simple_ga_ask_state self key state params :
  (SimpleGA._ask self key state params).2 = state.
Proof.
  unfold SimpleGA._ask.
  by destruct (split key 4) as [|? [|? [|? [|? [|? ?]]]]].
Qed.

(** C9. The state that [_ask] returns is its input state, for SimAnneal
    and for SimpleGA, and so is the state after any number of [_ask]
    calls with any keys. *)
Theorem ask_returns_input_state sa sa_params sa_state ga ga_params ga_state :
  (∀ key, (SimAnneal._ask sa key sa_state sa_params).2 = sa_state)
  ∧ (∀ key, (SimpleGA._ask ga key ga_state ga_params).2 = ga_state)
  ∧ (∀ keys, sim_anneal_ask_many sa sa_params keys sa_state = sa_state)
  ∧ (∀ keys, simple_ga_ask_many ga ga_params keys ga_state = ga_state).
Proof.
  split_and!.
  - intros key. apply sim_anneal_ask_state.
  - intros key. apply simple_ga_ask_state.
  - intros keys. unfold sim_anneal_ask_many.
    induction keys as [|k keys IH]; [done|]. simpl. apply IH.
  - intros keys. unfold simple_ga_ask_many.
    induction keys as [|k keys IH]; [done|]. simpl.
    by rewrite simple_ga_ask_state.
Qed.

End TellAndAsk.

(** ** [argmin] *)

Lemma argmin_from_spec (pre a : list Qc) bi bv :
  pre !! bi = Some bv → (∀ x, x ∈ pre → bv ≤ x) →
  ∃ m, (pre ++ a) !! Jnp.argmin_from a (length pre) bi bv = Some m
       ∧ ∀ x, x ∈ pre ++ a → m ≤ x.
Proof.
  revert pre bi bv. induction a as [|y a IH]; intros pre bi bv Hbi Hmin.
  - exists bv. rewrite app_nil_r. by split.
  - simpl. rewrite cons_middle, app_assoc.
    replace (S (length pre)) with (length (pre ++ [y]))
      by (rewrite length_app; simpl; lia).
    destruct (decide (y < bv)) as [Hlt|Hge].
    + apply IH.
      * by rewrite lookup_app_r, Nat.sub_diag.
      * intros x [Hx | ->%list_elem_of_singleton]%elem_of_app;
          [|apply Qcle_refl].
        apply Qclt_le_weak. eapply Qclt_le_trans; [exact Hlt|by apply Hmin].
    + apply IH.
      * apply lookup_app_l_Some, Hbi.
      * intros x [Hx | ->%list_elem_of_singleton]%elem_of_app;
          [by apply Hmin | by apply Qcnot_lt_le].
Qed.

(** On a non-empty array [argmin] is the index of a least value. *)
Lemma argmin_spec (a : list Qc) :
  a ≠ [] → ∃ m, a !! Jnp.argmin a = Some m ∧ ∀ x, x ∈ a → m ≤ x.
Proof.
  destruct a as [|y a]; [done|]. intros _.
  apply (argmin_from_spec [y] a 0 y); [done|].
  intros x ->%list_elem_of_singleton. apply Qcle_refl.
Qed.

(** ** The Metropolis acceptance of [SimAnneal._tell] *)

Section Metropolis.
Context `{PRNG} `{Libm}.

(** C1. [SimAnneal._tell] takes the member of least fitness in the given
    population and computes [delta] as that least fitness minus
    [state.current_fitness].  Where [boltzmann_constant * temperature] is
    not 0, it replaces the current solution and fitness by that member and
    its fitness exactly when [delta < 0] or the uniform draw of the key is
    below [exp(-delta / (boltzmann_constant * temperature))]; otherwise both
    are kept.  When [delta < 0] the replacement happens for every key,
    whatever the temperature. *)
Theorem sim_anneal_tell_metropolis self key population fitness state params :
  fitness ≠ [] → length population = length fitness →
  ∃ i best_member best_fitness,
    population !! i = Some best_member
    ∧ fitness !! i = Some best_fitness
    ∧ (∀ x, x ∈ fitness → best_fitness ≤ x)
    ∧ let delta := best_fitness - SimAnneal.current_fitness state in
      let accepts k :=
        delta < 0
        ∨ uniform k
          < exp (- delta / (SimAnneal.boltzmann_constant params
                            * SimAnneal.temperature state)) in
      let tell k :=
        SimAnneal._tell self k population fitness state params in
      (SimAnneal.boltzmann_constant params * SimAnneal.temperature state ≠ 0 →
         (accepts key →
            SimAnneal.current_solution (tell key) = best_member
            ∧ SimAnneal.current_fitness (tell key) = best_fitness)
         ∧ (¬ accepts key →
            SimAnneal.current_solution (tell key)
            = SimAnneal.current_solution state
            ∧ SimAnneal.current_fitness (tell key)
              = SimAnneal.current_fitness state))
      ∧ (delta < 0 → ∀ k,
         SimAnneal.current_solution (tell k) = best_member
         ∧ SimAnneal.current_fitness (tell k) = best_fitness).
Proof.
  intros Hne Hlen.
  destruct (argmin_spec fitness Hne) as (m & Hm & Hmin).
  destruct (lookup_lt_is_Some_2 population (Jnp.argmin fitness))
    as [row Hrow]; [rewrite Hlen; by eapply lookup_lt_Some|].
  exists (Jnp.argmin fitness), row, m. split_and!; try done.
  cbv zeta. split; [intros _; split|].
  - intros [Hd | Hu]; unfold SimAnneal._tell; simpl;
      unfold Jnp.getrow, Jnp.getitem; rewrite Hrow, Hm; simpl.
    + by rewrite (bool_decide_eq_true_2 _ Hd).
    + rewrite (bool_decide_eq_true_2 _ Hu). by rewrite orb_true_r.
  - intros Hno. unfold SimAnneal._tell; simpl.
    unfold Jnp.getrow, Jnp.getitem; rewrite Hrow, Hm; simpl.
    rewrite !bool_decide_eq_false_2; [done| |]; intros ?; apply Hno; auto.
  - intros Hd k. unfold SimAnneal._tell; simpl.
    unfold Jnp.getrow, Jnp.getitem; rewrite Hrow, Hm; simpl.
    by rewrite (bool_decide_eq_true_2 _ Hd).
Qed.

End Metropolis.

Lemma sim_anneal_tell_metropolis_witness :
  let tell (k : nat) :=
    @SimAnneal._tell counter_prng rational_libm sa_strategy k sa_population
      sa_fitness sa_state sa_params in
  SimAnneal.boltzmann_constant sa_params * SimAnneal.temperature sa_state ≠ 0
  ∧ ∃ i best_member best_fitness,
      sa_population !! i = Some best_member
      ∧ sa_fitness !! i = Some best_fitness
      ∧ (∀ x, x ∈ sa_fitness → best_fitness ≤ x)
      ∧ (best_fitness - SimAnneal.current_fitness sa_state < 0
         ∨ @uniform counter_prng 0%nat
           < @exp rational_libm
               (- (best_fitness - SimAnneal.current_fitness sa_state)
                  / (SimAnneal.boltzmann_constant sa_params
                     * SimAnneal.temperature sa_state)) →
         SimAnneal.current_solution (tell 0%nat) = best_member
         ∧ SimAnneal.current_fitness (tell 0%nat) = best_fitness)
      ∧ (best_fitness - SimAnneal.current_fitness sa_state < 0 → ∀ k,
           SimAnneal.current_solution (tell k) = best_member
           ∧ SimAnneal.current_fitness (tell k) = best_fitness).
Proof.
  assert (SimAnneal.boltzmann_constant sa_params
          * SimAnneal.temperature sa_state ≠ 0) as HkT by by_eval.
  split; [exact HkT|].
  destruct (@sim_anneal_tell_metropolis counter_prng rational_libm
              sa_strategy 0%nat sa_population sa_fitness sa_state sa_params)
    as (i & bm & bf & H1 & H2 & H3 & H4); [done|done|].
  cbv zeta in H4. destruct H4 as (Hmet & H4).
  destruct (Hmet HkT) as [Hacc _].
  exists i, bm, bf. auto.
Defined.

Example sim_anneal_tell_improves (k : nat) :
  SimAnneal.current_fitness
    (@SimAnneal._tell counter_prng rational_libm sa_strategy k sa_population
       sa_fitness sa_state sa_params)
  = Qc_of_Z 5.
Proof. reflexivity. Qed.

(** ** The weights of the elites and the indices that [choice] draws *)

Lemma Qc_of_nat_S n : Qc_of_nat (S n) = Qc_of_nat n + 1.
Proof.
  unfold Qc_of_nat. rewrite Nat2Z.inj_succ, <- Z.add_1_r, Z2Qc_inj_add.
  by rewrite Z2Qc_inj_1.
Qed.

Lemma cumsum_from_elite_mask K s len :
  Jnp.cumsum_from (Qc_of_nat (s `min` K))
    (map b2q (map (λ i, bool_decide (i < K)%nat) (seq s len)))
  = map (λ i, Qc_of_nat (S i `min` K)) (seq s len).
Proof.
  revert s. induction len as [|len IH]; intros s; [done|]. simpl.
  assert (Qc_of_nat (s `min` K) + b2q (bool_decide (s < K)%nat)
          = Qc_of_nat (S s `min` K)) as ->.
  { case_bool_decide; unfold b2q.
    - rewrite !Nat.min_l by lia. by rewrite Qc_of_nat_S.
    - rewrite !Nat.min_r by lia. by rewrite Qcplus_0_r. }
  by rewrite IH.
Qed.

Lemma cumsum_elite_mask K n :
  Jnp.cumsum (map b2q (map (λ i, bool_decide (i < K)%nat) (seq 0 n)))
  = map (λ i, Qc_of_nat (S i `min` K)) (seq 0 n).
Proof.
  unfold Jnp.cumsum. rewrite <- cumsum_from_elite_mask.
  f_equal. change (0 `min` K)%nat with 0%nat. by rewrite Qc_of_nat_0.
Qed.

Lemma searchsorted_le (a : list Qc) i x v :
  a !! i = Some x → ¬ x < v → (Jnp.searchsorted a v ≤ i)%nat.
Proof.
  revert i. induction a as [|y a IH]; intros i Hi Hx; [done|]. simpl.
  destruct (decide (y < v)) as [Hy|Hy]; [|lia].
  destruct i as [|i]; simplify_eq/=; [done|].
  specialize (IH i Hi Hx). lia.
Qed.

Section Choice.
Context `{PRNG}.

(** With [K] elites among [n] members, every drawn index is below [K]. *)
Lemma choice_indices_elite key m K n :
  (0 < K ≤ n)%nat →
  Forall (λ j, (j < K)%nat)
    (Random.choice_indices key m
       (map (λ i, bool_decide (i < K)%nat) (seq 0 n))).
Proof.
  intros HK. unfold Random.choice_indices. rewrite cumsum_elite_mask.
  set (p_cuml := map (λ i, Qc_of_nat (S i `min` K)) (seq 0 n)).
  assert (∀ j, (j < n)%nat →
            p_cuml !! j = Some (Qc_of_nat (S j `min` K))) as Hget.
  { intros j Hj. unfold p_cuml.
    by rewrite list_lookup_fmap, lookup_seq_lt by lia. }
  assert (p_cuml !! (K - 1)%nat = Some (Qc_of_nat K)) as Hlook.
  { rewrite Hget by lia. by replace (S (K - 1) `min` K)%nat with K by lia. }
  assert (last p_cuml = Some (Qc_of_nat K)) as ->.
  { rewrite last_lookup.
    replace (length p_cuml) with n
      by (unfold p_cuml; by rewrite length_map, length_seq).
    rewrite Hget by lia.
    by replace (S (pred n) `min` K)%nat with K by lia. }
  simpl. rewrite Forall_fmap, Forall_fmap.
  eapply Forall_impl; [apply (uniform_vec_range key m)|].
  intros u [Hu0 Hu1]. simpl.
  enough (Jnp.searchsorted p_cuml (Qc_of_nat K * (1 - u)) ≤ K - 1)%nat
    by lia.
  eapply searchsorted_le; [exact Hlook|].
  apply Qcle_not_lt.
  rewrite <- (Qcmult_1_r (Qc_of_nat K)) at 2.
  apply Qcmult_le_mono_nonneg_l.
  - unfold Qc_of_nat. rewrite <- Z2Qc_inj_0.
    apply (proj1 (Z2Qc_inj_le _ _)). lia.
  - apply Qcle_minus_iff.
    replace (1 + - (1 - u)) with u by ring. done.
Qed.

Lemma length_choice_indices key m p :
  length (Random.choice_indices key m p) = m.
Proof.
  unfold Random.choice_indices.
  by rewrite !length_map, length_uniform_vec.
Qed.

(** ** Crossover at rate 0 *)

Lemma crossover_mask_false (parent_1 parent_2 : list Qc) (us : list Qc) :
  length us = length parent_1 → length parent_1 = length parent_2 →
  Forall (λ u, 0 ≤ u ∧ u < 1) us →
  zip_with Qcplus
    (zip_with (λ x m, x * (1 - b2q m)) parent_1
       (map (λ u, bool_decide (u < 0)) us))
    (zip_with (λ y m, y * b2q m) parent_2
       (map (λ u, bool_decide (u < 0)) us))
  = parent_1.
Proof.
  revert parent_2 us.
  induction parent_1 as [|x parent_1 IH]; intros [|y parent_2] [|u us];
    try done.
  intros [= Hus] [= Hp] [[Hu _] Hall]%Forall_cons. simpl.
  rewrite bool_decide_eq_false_2 by (by apply Qcle_not_lt).
  rewrite IH by done. f_equal. simpl. ring.
Qed.

Lemma crossover_rate_0 key (parent_1 parent_2 : list Qc) :
  length parent_1 = length parent_2 →
  SimpleGA.crossover key parent_1 parent_2 0 = parent_1.
Proof.
  intros Hlen. unfold SimpleGA.crossover.
  apply crossover_mask_false;
    [apply length_uniform_vec | done | apply uniform_vec_range].
Qed.

Lemma vmap_crossover_rate_0 (keys : list Key) parents_1 parents_2 :
  length keys = length parents_1 →
  Forall2 (λ a b : list Qc, length a = length b) parents_1 parents_2 →
  zip_with (λ k pp, SimpleGA.crossover k pp.1 pp.2 0) keys
    (zip parents_1 parents_2)
  = parents_1.
Proof.
  intros Hk Hp. revert keys Hk.
  induction Hp as [|a b parents_1 parents_2 Hab Hp IH]; intros [|k keys];
    try done.
  intros [= Hk]. simpl. by rewrite crossover_rate_0, IH.
Qed.

End Choice.

(** ** Parent selection and offspring of [SimpleGA._ask] *)

Section SimpleGAAsk.
Context `{PRNG}.

Lemma length_ask_parents self key state :
  length (SimpleGA.ask_parents self key state)
  = SimpleGA.population_size self.
Proof.
  unfold SimpleGA.ask_parents, Random.choice, Jnp.take_rows.
  by rewrite length_map, length_choice_indices.
Qed.

Lemma ask_parents_elite self key state i p :
  (0 < SimpleGA.num_elites self ≤ SimpleGA.population_size self)%nat →
  length (SimpleGA.population state) = SimpleGA.population_size self →
  length (SimpleGA.fitness state) = SimpleGA.population_size self →
  SimpleGA.ask_parents self key state !! i = Some p →
  elite_member self state p.
Proof.
  intros HK Hpop Hfit Hp.
  unfold SimpleGA.ask_parents, Random.choice, Jnp.take_rows in Hp.
  rewrite list_lookup_fmap in Hp.
  destruct (Random.choice_indices _ _ _ !! i) as [j|] eqn:Hj; [|done].
  simpl in Hp. injection Hp as <-.
  assert (j < SimpleGA.num_elites self)%nat as HjK.
  { pose proof (choice_indices_elite key (SimpleGA.population_size self)
                  (SimpleGA.num_elites self) (SimpleGA.population_size self)
                  HK) as Hall.
    rewrite Forall_forall in Hall. apply Hall.
    by eapply list_elem_of_lookup_2. }
  destruct (lookup_lt_is_Some_2 (Jnp.argsort (SimpleGA.fitness state)) j)
    as [m Hm]; [rewrite argsort_length; lia|].
  pose proof (argsort_lt _ _ _ Hm) as Hmlt.
  destruct (lookup_lt_is_Some_2 (SimpleGA.population state) m)
    as [row Hrow]; [lia|].
  exists j, m. split_and!; try done.
  - unfold SimpleGA.elites, Jnp.take_rows, Jnp.getrow.
    rewrite list_lookup_fmap, Hm. simpl. by rewrite Hrow.
  - intros k m' Hk Hm'.
    eapply (StronglySorted_lookup_le
              (Jnp.take (SimpleGA.fitness state)
                 (Jnp.argsort (SimpleGA.fitness state))) j k);
      [apply take_argsort_sorted| | |lia];
      unfold Jnp.take; rewrite list_lookup_fmap;
      [by rewrite Hm | by rewrite Hm'].
Qed.

Lemma ask_parents_shape self key state :
  (0 < SimpleGA.num_elites self ≤ SimpleGA.population_size self)%nat →
  length (SimpleGA.population state) = SimpleGA.population_size self →
  length (SimpleGA.fitness state) = SimpleGA.population_size self →
  Forall (λ row, length row = SimpleGA.num_dims self)
    (SimpleGA.population state) →
  Forall (λ row, length row = SimpleGA.num_dims self)
    (SimpleGA.ask_parents self key state).
Proof.
  intros HK Hpop Hfit Hrows.
  apply Forall_forall. intros p [i Hp]%list_elem_of_lookup_1.
  destruct (ask_parents_elite self key state i p HK Hpop Hfit Hp)
    as (j & m & _ & _ & Hrow & _).
  rewrite Forall_forall in Hrows. apply Hrows.
  by eapply list_elem_of_lookup_2.
Qed.

(** C2. In [SimpleGA._ask], both parents of every offspring are drawn from
    the [num_elites] members of lowest fitness, at positions below
    [num_elites] of the ascending order, never from another member; with
    [crossover_rate = 0] the population after the crossover is the list of
    the first parents, and each gene of a child returned is the gene of its
    first parent plus [state.std] times the normal draw made for that gene
    from the child's mutation key. *)
Theorem simple_ga_ask_elitist self key state params :
  (0 < SimpleGA.num_elites self ≤ SimpleGA.population_size self)%nat →
  length (SimpleGA.population state) = SimpleGA.population_size self →
  length (SimpleGA.fitness state) = SimpleGA.population_size self →
  Forall (λ row, length row = SimpleGA.num_dims self)
    (SimpleGA.population state) →
  ∃ key_crossover key_mutation key_1 key_2,
    split key 4 = [key_crossover; key_mutation; key_1; key_2]
    ∧ let n := SimpleGA.population_size self in
      let parents_1 := SimpleGA.ask_parents self key_1 state in
      let parents_2 := SimpleGA.ask_parents self key_2 state in
      length parents_1 = n
      ∧ length parents_2 = n
      ∧ Forall (λ j, (j < SimpleGA.num_elites self)%nat)
          (Random.choice_indices key_1 n (SimpleGA.elite_mask self)
           ++ Random.choice_indices key_2 n (SimpleGA.elite_mask self))
      ∧ (∀ p, p ∈ parents_1 ++ parents_2 → elite_member self state p)
      ∧ (SimpleGA.crossover_rate params = 0 →
           SimpleGA.ask_crossover self key_crossover key_1 key_2 state
             params = parents_1
           ∧ (SimpleGA._ask self key state params).1
             = zip_with
                 (λ k parent,
                    zip_with (λ x noise, x + SimpleGA.std state * noise)
                      parent (normal_vec k (SimpleGA.num_dims self)))
                 (split key_mutation n) parents_1).
Proof.
  intros HK Hpop Hfit Hrows.
  pose proof (length_split key 4) as Hsplit.
  destruct (split key 4) as [|kc [|km [|k1 [|k2 [|? ?]]]]] eqn:Ekeys;
    try done.
  exists kc, km, k1, k2. split; [done|]. cbv zeta.
  assert (SimpleGA.crossover_rate params = 0 →
          SimpleGA.ask_crossover self kc k1 k2 state params
          = SimpleGA.ask_parents self k1 state) as Hcross.
  { intros Hrate. unfold SimpleGA.ask_crossover. rewrite Hrate.
    apply vmap_crossover_rate_0.
    - by rewrite length_split, length_ask_parents.
    - apply Forall2_same_length_lookup. split.
      + by rewrite !length_ask_parents.
      + intros i a b Ha Hb.
        pose proof (ask_parents_shape self k1 state HK Hpop Hfit Hrows)
          as H1.
        pose proof (ask_parents_shape self k2 state HK Hpop Hfit Hrows)
          as H2.
        rewrite Forall_forall in H1, H2.
        rewrite (H1 a), (H2 b); [done| |]; by eapply list_elem_of_lookup_2. }
  split_and!.
  - apply length_ask_parents.
  - apply length_ask_parents.
  - apply Forall_app. split; by apply choice_indices_elite.
  - intros p [[i Hp]%list_elem_of_lookup_1 | [i Hp]%list_elem_of_lookup_1]
      %elem_of_app; by eapply ask_parents_elite.
  - intros Hrate. split; [by apply Hcross|].
    unfold SimpleGA._ask. rewrite Ekeys. simpl. rewrite Hcross by done.
    pose proof (ask_parents_shape self k1 state HK Hpop Hfit Hrows)
      as Hshape.
    revert Hshape. generalize (SimpleGA.ask_parents self k1 state).
    generalize (split km (SimpleGA.population_size self)).
    intros ks ps Hshape. revert ks.
    induction Hshape as [|p ps Hp _ IH]; intros [|k ks]; simpl; try done.
    rewrite IH. unfold SimpleGA.mutation. by rewrite Hp.
Qed.

End SimpleGAAsk.

Lemma simple_ga_ask_elitist_witness :
  ∃ key_crossover key_mutation key_1 key_2 : nat,
    @split counter_prng 7%nat 4
    = [key_crossover; key_mutation; key_1; key_2]
    ∧ (∀ p,
         p ∈ @SimpleGA.ask_parents counter_prng ga_strategy key_1 ga_state
             ++ @SimpleGA.ask_parents counter_prng ga_strategy key_2 ga_state →
         elite_member ga_strategy ga_state p)
    ∧ @SimpleGA.ask_crossover counter_prng ga_strategy key_crossover key_1
        key_2 ga_state ga_params
      = @SimpleGA.ask_parents counter_prng ga_strategy key_1 ga_state.
Proof.
  destruct (@simple_ga_ask_elitist counter_prng ga_strategy 7%nat ga_state
              ga_params)
    as (kc & km & k1 & k2 & Hkeys & Hrest).
  - simpl. lia.
  - reflexivity.
  - reflexivity.
  - repeat constructor.
  - cbv zeta in Hrest. destruct Hrest as (_ & _ & _ & Helite & Hcross).
    exists kc, km, k1, k2. split_and!; [done|done|]. by apply Hcross.
Defined.

(** The elites of the example are its members 1 and 2. *)
Example ga_parents_of_key_18 :
  @SimpleGA.ask_parents counter_prng ga_strategy 18%nat ga_state
  = [[Qc_of_Z 1; Qc_of_Z 1]; [Qc_of_Z 1; Qc_of_Z 1];
     [Qc_of_Z 0; Qc_of_Z 2]; [Qc_of_Z 0; Qc_of_Z 2]].
Proof. by_eval. Qed.

(** ** [FitnessFeatures.apply] *)

Section FitnessFeatures.
Context `{FitnessShapingFns}.

(** [norm_diff_best] hands the bound method [diff_best.min] to
    [jnp.nanmin], and so raises on every input. *)
Lemma norm_diff_best_raises fitness best_fitness :
  LesTools.norm_diff_best fitness best_fitness
  = Raise (TypeError "nanmin requires ndarray or scalar arguments").
Proof. reflexivity. Qed.

(** Without the best-difference column, the result is the indicator column
    followed by the enabled columns, each joined as one more column. *)
Lemma apply_columns_without_diff_best self x fitness best_fitness :
  LesTools.ff_diff_best self = false →
  let fitness' :=
    if LesTools.ff_maximize self then map (λ f, (-1) * f) fitness
    else fitness in
  LesTools.apply self x fitness best_fitness
  = Ok (foldl LesTools.concatenate_cols
          (LesTools.reshape_col
             (map (λ f, b2q (bool_decide (f < best_fitness)) * 1) fitness'))
          (LesTools.reshape_col <$> optional_columns self x fitness')).
Proof.
  intros Hdiff. unfold LesTools.apply, optional_columns. rewrite Hdiff.
  destruct (LesTools.ff_centered_rank self), (LesTools.ff_z_score self),
    (LesTools.ff_norm_range self);
    destruct (bool_decide (LesTools.ff_w_decay self ≠ 0)); reflexivity.
Qed.

(** C8 (the code departs from the claim). With the best-difference column
    enabled, [FitnessFeatures.apply] raises a [TypeError] on every input
    and returns no feature matrix. *)
Theorem apply_diff_best_raises cr zs w nr mx x fitness best_fitness :
  ∃ msg,
    LesTools.apply
      {| LesTools.ff_centered_rank := cr; LesTools.ff_z_score := zs;
         LesTools.ff_w_decay := w; LesTools.ff_diff_best := true;
         LesTools.ff_norm_range := nr; LesTools.ff_maximize := mx |}
      x fitness best_fitness
    = Raise (TypeError msg).
Proof.
  eexists. unfold LesTools.apply.
  rewrite norm_diff_best_raises. simpl. by destruct cr, zs.
Qed.

End FitnessFeatures.

(** The column that the documentation describes, on the fitness [0, 2] with
    best fitness 0. *)
Example norm_diff_best_doc_0_2 :
  norm_diff_best_doc [0; Qc_of_Z 2] 0
  = [0; Q2Qc (20000000000 # 20000000001)].
Proof. by_eval. Qed.


(** * Further properties of the sources *)

(** ** Arithmetic on the rationals by way of [Q] *)

Lemma Qc_this_plus (x y : Qc) : (this (x + y) == this x + this y)%Q.
Proof. apply Qred_correct. Qed.

Lemma Qc_this_mult (x y : Qc) : (this (x * y) == this x * this y)%Q.
Proof. apply Qred_correct. Qed.

Lemma Qc_this_opp (x : Qc) : (this (- x) == - this x)%Q.
Proof. apply Qred_correct. Qed.

Lemma Qc_this_minus (x y : Qc) : (this (x - y) == this x - this y)%Q.
Proof. unfold Qcminus. rewrite Qc_this_plus, Qc_this_opp. reflexivity. Qed.

Lemma Qc_this_Q2Qc (q : Q) : (this (Q2Qc q) == q)%Q.
Proof. apply Qred_correct. Qed.

(** Turns the order goals and hypotheses on [Qc] into ones on [Q], on which
    [lra] and [nra] work. *)
Ltac Qc_to_Q :=
  unfold Qcle, Qclt in *;
  repeat (progress
    rewrite ?Qc_this_plus, ?Qc_this_minus, ?Qc_this_mult, ?Qc_this_opp,
      ?Qc_this_Q2Qc in * ).

Lemma eps_pos : 0 < eps.
Proof. by_eval. Qed.

Lemma Qc_div_nonneg (a d : Qc) : 0 ≤ a → 0 < d → 0 ≤ a / d.
Proof.
  intros Ha Hd. unfold Qcdiv.
  assert (0 < / d) as Hi by (by apply Qcinv_pos).
  Qc_to_Q. nra.
Qed.

Lemma Qc_div_le_1 (a d : Qc) : a ≤ d → 0 < d → a / d ≤ 1.
Proof.
  intros Ha Hd.
  rewrite <- (Qcmult_inv_r d)
    by (intros E; rewrite E in Hd; by apply (irreflexivity Qclt) in Hd).
  unfold Qcdiv. apply Qcmult_le_mono_nonneg_r; [|done].
  apply Qclt_le_weak. by apply Qcinv_pos.
Qed.

Lemma Qc_div_le_mono (a b d : Qc) : a ≤ b → 0 < d → a / d ≤ b / d.
Proof.
  intros Hab Hd. unfold Qcdiv. apply Qcmult_le_mono_nonneg_r; [|done].
  apply Qclt_le_weak. by apply Qcinv_pos.
Qed.

Lemma Qc_sub_le_mono (a b c : Qc) : a ≤ b → a - c ≤ b - c.
Proof. intros Hab. Qc_to_Q. lra. Qed.

Lemma affine_mono (lo hi t1 t2 : Qc) :
  lo ≤ hi → t1 ≤ t2 → (hi - lo) * t1 + lo ≤ (hi - lo) * t2 + lo.
Proof. intros Hlh Ht. Qc_to_Q. nra. Qed.

Lemma affine_unit (lo hi t : Qc) :
  lo ≤ hi → 0 ≤ t → t ≤ 1 →
  lo ≤ (hi - lo) * t + lo ∧ (hi - lo) * t + lo ≤ hi.
Proof. intros Hlh H0 H1. Qc_to_Q. split; nra. Qed.

(** ** [nanmin], [nanmax] and [clip] *)

Lemma minimum_le_l x y : Jnp.minimum x y ≤ x.
Proof.
  unfold Jnp.minimum. destruct (decide (y < x));
    [by apply Qclt_le_weak | apply Qcle_refl].
Qed.

Lemma minimum_le_r x y : Jnp.minimum x y ≤ y.
Proof.
  unfold Jnp.minimum. destruct (decide (y < x));
    [apply Qcle_refl | by apply Qcnot_lt_le].
Qed.

Lemma foldl_minimum_le (l : list Qc) b :
  foldl Jnp.minimum b l ≤ b ∧ ∀ y, y ∈ l → foldl Jnp.minimum b l ≤ y.
Proof.
  revert b. induction l as [|z l IH]; intros b; simpl.
  - split; [apply Qcle_refl|]. by intros y Hy%elem_of_nil.
  - destruct (IH (Jnp.minimum b z)) as [H1 H2]. split.
    + eapply Qcle_trans; [exact H1 | apply minimum_le_l].
    + intros y [-> | Hy]%elem_of_cons; [|by apply H2].
      eapply Qcle_trans; [exact H1 | apply minimum_le_r].
Qed.

Lemma foldl_maximum_ge (l : list Qc) b :
  b ≤ foldl Jnp.maximum b l ∧ ∀ y, y ∈ l → y ≤ foldl Jnp.maximum b l.
Proof.
  revert b. induction l as [|z l IH]; intros b; simpl.
  - split; [apply Qcle_refl|]. by intros y Hy%elem_of_nil.
  - destruct (IH (Jnp.maximum b z)) as [H1 H2]. split.
    + eapply Qcle_trans; [apply maximum_ge_l | exact H1].
    + intros y [-> | Hy]%elem_of_cons; [|by apply H2].
      eapply Qcle_trans; [apply maximum_ge_r | exact H1].
Qed.

Lemma nanmin_le (a : list Qc) x : x ∈ a → Jnp.nanmin a ≤ x.
Proof.
  destruct a as [|b a]; [by intros ?%elem_of_nil|]. simpl.
  destruct (foldl_minimum_le a b) as [H1 H2].
  intros [-> | Hx]%elem_of_cons; [done | by apply H2].
Qed.

Lemma nanmax_ge (a : list Qc) x : x ∈ a → x ≤ Jnp.nanmax a.
Proof.
  destruct a as [|b a]; [by intros ?%elem_of_nil|]. simpl.
  destruct (foldl_maximum_ge a b) as [H1 H2].
  intros [-> | Hx]%elem_of_cons; [done | by apply H2].
Qed.

Lemma foldl_minimum_elem (l : list Qc) b :
  foldl Jnp.minimum b l ∈ b :: l.
Proof.
  revert b. induction l as [|z l IH]; intros b; simpl; [by left|].
  specialize (IH (Jnp.minimum b z)).
  apply elem_of_cons in IH as [-> | IH].
  - unfold Jnp.minimum. destruct (decide (z < b)).
    + right. by left.
    + by left.
  - right. by right.
Qed.

Lemma nanmin_elem (a : list Qc) : a ≠ [] → Jnp.nanmin a ∈ a.
Proof. destruct a as [|b a]; [done|]. intros _. apply foldl_minimum_elem. Qed.

Lemma clip_mono x y lo hi :
  x ≤ y → Jnp.clip x (Some lo) (Some hi) ≤ Jnp.clip y (Some lo) (Some hi).
Proof.
  intros Hxy. unfold Jnp.clip, Jnp.minimum, Jnp.maximum.
  repeat case_decide; Qc_to_Q; lra.
Qed.

(** ** Range normalization *)

Section RangeNorm.
Variables (arr : list Qc) (min_val max_val : Qc).

Let clipped : list Qc :=
  map (λ x, Jnp.clip x (Some (- big)) (Some big)) arr.
Let span : Qc := Jnp.nanmax clipped - Jnp.nanmin clipped + eps.

Lemma range_norm_trafo_unfold :
  Fitness.range_norm_trafo arr min_val max_val
  = map (λ x, (max_val - min_val) * ((x - Jnp.nanmin clipped) / span)
              + min_val) clipped.
Proof.
  unfold Fitness.range_norm_trafo. apply map_ext. intros x.
  unfold Qcdiv. by rewrite Qcmult_assoc.
Qed.

Lemma range_norm_span_pos : arr ≠ [] → 0 < span.
Proof.
  intros Hne. unfold span.
  assert (Jnp.nanmin clipped ≤ Jnp.nanmax clipped) as Hle.
  { apply nanmax_ge, nanmin_elem. unfold clipped. by destruct arr. }
  pose proof eps_pos as Heps. Qc_to_Q. lra.
Qed.

Lemma range_norm_unit (x : Qc) :
  x ∈ clipped →
  0 ≤ (x - Jnp.nanmin clipped) / span ∧ (x - Jnp.nanmin clipped) / span ≤ 1.
Proof.
  intros Hx.
  assert (arr ≠ []) as Hne
    by (intros E; unfold clipped in Hx; rewrite E in Hx;
        by apply elem_of_nil in Hx).
  pose proof (range_norm_span_pos Hne) as Hspan.
  pose proof (nanmin_le _ _ Hx) as Hmin.
  pose proof (nanmax_ge _ _ Hx) as Hmax.
  split.
  - apply Qc_div_nonneg; [|done]. Qc_to_Q. lra.
  - apply Qc_div_le_1; [|done]. unfold span.
    pose proof eps_pos as Heps. Qc_to_Q. lra.
Qed.

End RangeNorm.

(** X1. On a non-empty array and with [min_val <= max_val], range
    normalization keeps the length and puts every value in
    [[min_val, max_val]]. *)
Theorem range_norm_trafo_bounds (arr : list Qc) (min_val max_val : Qc) :
  arr ≠ [] → min_val ≤ max_val →
  length (Fitness.range_norm_trafo arr min_val max_val) = length arr
  ∧ Forall (λ v, min_val ≤ v ∧ v ≤ max_val)
      (Fitness.range_norm_trafo arr min_val max_val).
Proof.
  intros _ Hmm. rewrite range_norm_trafo_unfold. split.
  - by rewrite !length_map.
  - apply Forall_fmap, Forall_forall. intros x Hx. simpl.
    destruct (range_norm_unit arr x Hx) as [H0 H1].
    by apply affine_unit.
Qed.

Lemma range_norm_trafo_bounds_witness :
  Forall (λ v, -1 ≤ v ∧ v ≤ 1) (Fitness.range_norm_trafo fitness_3 (-1) 1).
Proof.
  apply (range_norm_trafo_bounds fitness_3 (-1) 1); [done | by_eval].
Defined.

(** X2. Range normalization maps a least value of the array to [min_val]
    exactly; a constant array becomes constantly [min_val]. *)
Theorem range_norm_trafo_least (arr : list Qc) (min_val max_val : Qc) i x :
  arr !! i = Some x → (∀ y, y ∈ arr → x ≤ y) →
  Fitness.range_norm_trafo arr min_val max_val !! i = Some min_val.
Proof.
  intros Hi Hmin. rewrite range_norm_trafo_unfold.
  rewrite !list_lookup_fmap, Hi. simpl. f_equal.
  change (Jnp.minimum (Jnp.maximum x (- big)) big)
    with (Jnp.clip x (Some (- big)) (Some big)).
  set (cx := Jnp.clip x (Some (- big)) (Some big)).
  set (clipped := map _ arr).
  assert (Jnp.nanmin clipped = cx) as ->.
  { apply (anti_symm Qcle).
    - apply nanmin_le. unfold clipped, cx.
      apply (list_elem_of_fmap_2 (λ x, Jnp.clip x (Some (- big)) (Some big))).
      by eapply list_elem_of_lookup_2.
    - assert (Jnp.nanmin clipped ∈ clipped) as Hin.
      { apply nanmin_elem. unfold clipped. destruct arr; [done|done]. }
      unfold clipped in Hin at 2.
      apply list_elem_of_fmap in Hin as (y & -> & Hy).
      apply clip_mono. by apply Hmin. }
  replace (cx - cx) with 0 by ring.
  unfold Qcdiv. rewrite Qcmult_0_l, Qcmult_0_r. ring.
Qed.

Lemma range_norm_trafo_least_witness :
  Fitness.range_norm_trafo fitness_3 (-1) 1 !! 1%nat = Some (-1).
Proof.
  apply (range_norm_trafo_least fitness_3 (-1) 1 1 (Qc_of_Z (-2))); [done|].
  apply Forall_forall. by_eval.
Defined.

(** X3. Range normalization keeps the order: with [min_val <= max_val], a
    member whose fitness is not above that of another gets a value that is
    not above the other's. *)
Theorem range_norm_trafo_monotone (arr : list Qc) (min_val max_val : Qc)
    i j x y :
  min_val ≤ max_val → arr !! i = Some x → arr !! j = Some y → x ≤ y →
  ∃ u v,
    Fitness.range_norm_trafo arr min_val max_val !! i = Some u
    ∧ Fitness.range_norm_trafo arr min_val max_val !! j = Some v
    ∧ u ≤ v.
Proof.
  intros Hmm Hi Hj Hxy. rewrite range_norm_trafo_unfold.
  rewrite !list_lookup_fmap, Hi, Hj. simpl. eexists _, _.
  split; [done|]. split; [done|].
  apply affine_mono; [done|]. apply Qc_div_le_mono.
  - apply Qc_sub_le_mono, (clip_mono x y (- big) big Hxy).
  - apply (range_norm_span_pos arr). by destruct arr.
Qed.

Lemma range_norm_trafo_monotone_witness :
  ∃ u v,
    Fitness.range_norm_trafo fitness_3 (-1) 1 !! 2%nat = Some u
    ∧ Fitness.range_norm_trafo fitness_3 (-1) 1 !! 0%nat = Some v
    ∧ u ≤ v.
Proof.
  apply (range_norm_trafo_monotone fitness_3 (-1) 1 2 0 (Qc_of_Z 4)
           (Qc_of_Z 7)); [by_eval | done | done | by_eval].
Defined.

(** ** The z-score *)

Lemma sum_cons x (a : list Qc) : Jnp.sum (x :: a) = x + Jnp.sum a.
Proof. done. Qed.

Lemma sum_scaled_deviations (a : list Qc) (m c : Qc) :
  Jnp.sum (map (λ x, (x - m) / c) a)
  = (Jnp.sum a - Qc_of_nat (length a) * m) / c.
Proof.
  induction a as [|x a IH].
  - simpl. rewrite Qc_of_nat_0. unfold Qcdiv. ring.
  - rewrite map_cons, !sum_cons, IH. simpl length. rewrite Qc_of_nat_S.
    unfold Qcdiv. ring.
Qed.

Lemma Qc_of_nat_pos n : (0 < n)%nat → 0 < Qc_of_nat n.
Proof. intros Hn. rewrite <- Qc_of_nat_0. by apply Qc_of_nat_lt. Qed.

Lemma Qc_pos_ne_0 (x : Qc) : 0 < x → x ≠ 0.
Proof. intros Hx E. rewrite E in Hx. by apply (irreflexivity Qclt) in Hx. Qed.

(** The mean times the number of values is their sum. *)
Lemma nanmean_total (a : list Qc) :
  Qc_of_nat (length a) * Jnp.nanmean a = Jnp.sum a.
Proof.
  destruct a as [|x a].
  - simpl. rewrite Qc_of_nat_0. ring.
  - unfold Jnp.nanmean. apply Qcmult_div_r, Qc_pos_ne_0, Qc_of_nat_pos.
    simpl. lia.
Qed.

Section ZScore.
Context `{Libm}.

(** X4. The z-scores of any array sum to zero, whatever the square root
    returns: the mean of the shaped fitness is 0. *)
Theorem z_score_trafo_sum_zero (arr : list Qc) :
  Jnp.sum (Fitness.z_score_trafo arr) = 0.
Proof.
  unfold Fitness.z_score_trafo. rewrite sum_scaled_deviations.
  rewrite nanmean_total. unfold Qcdiv. ring.
Qed.

Lemma nanmean_shift (arr : list Qc) (k : Qc) :
  arr ≠ [] → Jnp.nanmean (map (λ x, x + k) arr) = Jnp.nanmean arr + k.
Proof.
  intros Hne. unfold Jnp.nanmean. rewrite length_map.
  assert (Jnp.sum (map (λ x, x + k) arr)
          = Jnp.sum arr + Qc_of_nat (length arr) * k) as ->.
  { clear Hne. induction arr as [|x arr IH].
    - simpl. rewrite Qc_of_nat_0. ring.
    - rewrite map_cons, !sum_cons, IH. simpl length. rewrite Qc_of_nat_S.
      ring. }
  assert (Qc_of_nat (length arr) ≠ 0) as Hn.
  { apply Qc_pos_ne_0, Qc_of_nat_pos. destruct arr; [done|simpl; lia]. }
  field. done.
Qed.

(** X6. The z-score does not change when the same amount is added to every
    fitness value. *)
Theorem z_score_trafo_shift (arr : list Qc) (k : Qc) :
  Fitness.z_score_trafo (map (λ x, x + k) arr) = Fitness.z_score_trafo arr.
Proof.
  destruct (decide (arr = [])) as [-> | Hne]; [done|].
  unfold Fitness.z_score_trafo, Fitness.nanstd.
  rewrite !nanmean_shift by done. rewrite !map_map.
  assert (∀ x, x + k - (Jnp.nanmean arr + k) = x - Jnp.nanmean arr) as Hdev
    by (intros x; ring).
  rewrite (map_ext (λ x, (x + k - (Jnp.nanmean arr + k))
                         * (x + k - (Jnp.nanmean arr + k)))
             (λ x, (x - Jnp.nanmean arr) * (x - Jnp.nanmean arr)))
    by (intros x; by rewrite Hdev).
  apply map_ext. intros x. by rewrite Hdev.
Qed.

End ZScore.

(** ** The weight decay *)

Lemma sum_nonneg (a : list Qc) : Forall (λ x, 0 ≤ x) a → 0 ≤ Jnp.sum a.
Proof.
  induction 1 as [|x a Hx _ IH]; [apply Qcle_refl|].
  rewrite sum_cons. Qc_to_Q. lra.
Qed.

Lemma Qc_square_nonneg (x : Qc) : 0 ≤ x * x.
Proof. Qc_to_Q. nra. Qed.

Lemma nanmean_nonneg (a : list Qc) :
  Forall (λ x, 0 ≤ x) a → 0 ≤ Jnp.nanmean a.
Proof.
  intros Ha. unfold Jnp.nanmean. destruct a as [|x a].
  - by_eval.
  - apply Qc_div_nonneg; [by apply sum_nonneg|].
    apply Qc_of_nat_pos. simpl. lia.
Qed.

(** X7. On members with at least one parameter, [compute_l2_norm] gives one
    value per member, none negative, and 0 for a member whose parameters
    are all 0. *)
Theorem compute_l2_norm_nonneg (solution : list (list Qc)) :
  Forall (λ row, row ≠ []) solution →
  length (Fitness.compute_l2_norm solution) = length solution
  ∧ Forall (λ v, 0 ≤ v) (Fitness.compute_l2_norm solution)
  ∧ ∀ i n, solution !! i = Some (replicate (S n) 0) →
      Fitness.compute_l2_norm solution !! i = Some 0.
Proof.
  intros _. unfold Fitness.compute_l2_norm. split_and!.
  - by rewrite length_map.
  - apply Forall_fmap, Forall_forall. intros row _. simpl.
    apply nanmean_nonneg, Forall_fmap, Forall_forall. intros x _.
    apply Qc_square_nonneg.
  - intros i n Hi. rewrite list_lookup_fmap, Hi. simpl option_map.
    cbn [fmap option_fmap option_map]. f_equal.
    unfold Jnp.nanmean.
    assert (Jnp.sum (map (λ x, x * x) (replicate (S n) 0)) = 0) as ->.
    { clear Hi. generalize (S n). intros k.
      induction k as [|k IH]; [done|]. simpl replicate.
      rewrite map_cons, sum_cons, IH. ring. }
    unfold Qcdiv. ring.
Qed.

Lemma compute_l2_norm_nonneg_witness :
  Forall (λ v, 0 ≤ v) (Fitness.compute_l2_norm population_2x2).
Proof.
  apply (compute_l2_norm_nonneg population_2x2). by repeat constructor.
Defined.

Section WeightDecay.
Context `{Libm}.

(** X8. With a positive [w_decay], no maximization and no transform,
    [apply] gives a member with at least one parameter its fitness plus
    [w_decay] times the mean square of its parameters, which is never less
    than its fitness. *)
Theorem apply_weight_decay_penalty (self : Fitness.FitnessShaper)
    (population : list (list Qc)) (fitness : list Qc) i f solution :
  0 < Fitness.w_decay self → Fitness.maximize self = false →
  Fitness.centered_rank self = false → Fitness.z_score self = false →
  Fitness.norm_range self = false →
  fitness !! i = Some f → population !! i = Some solution →
  solution ≠ [] →
  ∃ v, Fitness.apply self population fitness !! i = Some v
       ∧ v = f + Fitness.w_decay self * FitnessSpec.mean_square solution
       ∧ f ≤ v.
Proof.
  intros Hw Hmax Hcr Hzs Hnr Hf Hs _. unfold Fitness.apply.
  rewrite Hmax, Hcr, Hzs, Hnr, apply_decay.
  unfold FitnessSpec.decay_step. rewrite decide_True by done.
  eexists. split_and!.
  - rewrite lookup_zip_with, Hf. simpl. by rewrite Hs.
  - done.
  - assert (0 ≤ FitnessSpec.mean_square solution) as Hm.
    { rewrite <- mean_square_nanmean.
      apply nanmean_nonneg, Forall_fmap, Forall_forall. intros x _.
      apply Qc_square_nonneg. }
    set (m := FitnessSpec.mean_square solution) in *.
    Qc_to_Q. nra.
Qed.

End WeightDecay.

Lemma apply_weight_decay_penalty_witness :
  ∃ v, Fitness.apply shaper_decay population_2x2 fitness_2 !! 0%nat = Some v
       ∧ v = Qc_of_Z 4
             + 2 * FitnessSpec.mean_square [Qc_of_Z 1; Qc_of_Z 3]
       ∧ Qc_of_Z 4 ≤ v.
Proof.
  apply (@apply_weight_decay_penalty rational_libm shaper_decay
           population_2x2 fitness_2 0 (Qc_of_Z 4) [Qc_of_Z 1; Qc_of_Z 3]);
    try done; by_eval.
Defined.

(** ** Ranks with ties: the sort is stable *)

Section Stable.
Variable key : nat → Qc.

Lemma stable_lt_irrefl i : ¬ stable_lt key i i.
Proof.
  intros [H | [_ H]]; [by apply (irreflexivity Qclt) in H | lia].
Qed.

Lemma stable_lt_asym i j : stable_lt key i j → ¬ stable_lt key j i.
Proof.
  intros [H1 | [E1 H1]] [H2 | [E2 H2]].
  - apply (irreflexivity Qclt (key i)). by eapply Qclt_trans.
  - rewrite E2 in H1. by apply (irreflexivity Qclt) in H1.
  - rewrite E1 in H2. by apply (irreflexivity Qclt) in H2.
  - lia.
Qed.

Lemma stable_lt_key_le i j : stable_lt key i j → key i ≤ key j.
Proof. intros [H | [-> _]]; [by apply Qclt_le_weak | apply Qcle_refl]. Qed.

Lemma stable_lt_intro i j : key i ≤ key j → (i < j)%nat → stable_lt key i j.
Proof.
  intros Hle Hij. destruct (Qcle_lt_or_eq _ _ Hle) as [Hlt | Heq].
  - by left.
  - by right.
Qed.

Lemma insert_by_stable i l :
  StronglySorted (stable_lt key) l → Forall (λ j, (i < j)%nat) l →
  StronglySorted (stable_lt key) (Jnp.insert_by key i l).
Proof.
  induction 1 as [|j l Hs IH Hall]; intros Hi; simpl.
  - repeat constructor.
  - apply Forall_cons in Hi as [Hij Hi].
    destruct (decide (key i ≤ key j)) as [Hle|Hnle].
    + constructor; [by constructor|]. constructor.
      * by apply stable_lt_intro.
      * rewrite Forall_forall in Hall, Hi. apply Forall_forall.
        intros x Hx. apply stable_lt_intro; [|by apply Hi].
        eapply Qcle_trans; [exact Hle|]. by apply stable_lt_key_le, Hall.
    + constructor; [by apply IH|].
      rewrite insert_by_Permutation. constructor; [|done].
      left. by apply Qcnot_le_lt.
Qed.

Lemma foldr_insert_by_stable s len :
  StronglySorted (stable_lt key)
    (foldr (Jnp.insert_by key) [] (seq s len)).
Proof.
  revert s. induction len as [|len IH]; intros s; simpl; [constructor|].
  apply insert_by_stable; [apply IH|].
  rewrite foldr_insert_by_Permutation. apply Forall_forall.
  intros j Hj%list_elem_of_In%in_seq. lia.
Qed.

End Stable.

Lemma argsort_stable a :
  StronglySorted (stable_lt (Jnp.getitem a)) (Jnp.argsort a).
Proof. apply foldr_insert_by_stable. Qed.

Lemma StronglySorted_lookup_rel {A} (R : relation A) (l : list A) i j a b :
  StronglySorted R l → l !! i = Some a → l !! j = Some b →
  (i < j)%nat → R a b.
Proof.
  intros Hs. revert i j.
  induction Hs as [|y l Hs IH Hall]; intros i j Hi Hj Hij; [done|].
  destruct j as [|j]; [lia|]. destruct i as [|i]; simplify_eq/=.
  - rewrite Forall_forall in Hall. eapply Hall, list_elem_of_lookup_2, Hj.
  - eapply IH; eauto. lia.
Qed.

(** A member that comes first in the stable order has the lower rank. *)
Lemma ranksort_stable fitness i j :
  (i < length fitness)%nat → (j < length fitness)%nat →
  stable_lt (Jnp.getitem fitness) i j →
  ∃ ri rj, Fitness.ranksort fitness !! i = Some ri
           ∧ Fitness.ranksort fitness !! j = Some rj
           ∧ (ri < rj)%nat ∧ (rj < length fitness)%nat.
Proof.
  intros Hi Hj Hlt.
  destruct (argsort_position fitness i Hi) as [ri Hri].
  destruct (argsort_position fitness j Hj) as [rj Hrj].
  exists ri, rj. split_and!; try by apply ranksort_lookup.
  - destruct (lt_eq_lt_dec ri rj) as [[Hlt' | Heq] | Hgt]; [done| |].
    + subst rj. rewrite Hri in Hrj. injection Hrj as ->.
      by apply stable_lt_irrefl in Hlt.
    + exfalso. eapply stable_lt_asym; [exact Hlt|].
      eapply (StronglySorted_lookup_rel _ (Jnp.argsort fitness) rj ri);
        eauto using argsort_stable.
  - apply lookup_lt_Some in Hrj. by rewrite argsort_length in Hrj.
Qed.

Lemma scaled_rank_lt N r1 r2 :
  (2 ≤ N)%nat → (r1 < r2)%nat → scaled_rank N r1 < scaled_rank N r2.
Proof.
  intros HN Hr. unfold scaled_rank.
  assert (0 < Qc_of_Z (Z.of_nat N - 1)) as Hpos.
  { rewrite <- Z2Qc_inj_0. apply (proj1 (Z2Qc_inj_lt _ _)). lia. }
  apply Qcinv_pos in Hpos. unfold Qcdiv.
  pose proof (Qc_of_nat_lt r1 r2 Hr) as Hlt.
  set (d := / Qc_of_Z (Z.of_nat N - 1)) in *.
  set (q1 := Qc_of_nat r1) in *. set (q2 := Qc_of_nat r2) in *.
  Qc_to_Q. nra.
Qed.

(** X9. Centered ranks keep the order of the fitness values, ties included:
    in an array of at least two values, a member with a lower fitness, or
    with the same fitness and a lower index, gets a strictly lower value. *)
Theorem centered_rank_trafo_order (fitness : list Qc) i j x y :
  fitness !! i = Some x → fitness !! j = Some y →
  x < y ∨ (x = y ∧ (i < j)%nat) →
  ∃ u v, Fitness.centered_rank_trafo fitness !! i = Some u
         ∧ Fitness.centered_rank_trafo fitness !! j = Some v
         ∧ u < v.
Proof.
  intros Hi Hj Hlt.
  assert (i ≠ j) as Hne.
  { intros ->. rewrite Hi in Hj. injection Hj as ->.
    destruct Hlt as [H | [_ H]]; [by apply (irreflexivity Qclt) in H|lia]. }
  pose proof (lookup_lt_Some _ _ _ Hi) as Hil.
  pose proof (lookup_lt_Some _ _ _ Hj) as Hjl.
  destruct (ranksort_stable fitness i j Hil Hjl)
    as (ri & rj & Hri & Hrj & Hr & _).
  { unfold stable_lt, Jnp.getitem. by rewrite Hi, Hj. }
  rewrite centered_rank_trafo_ranksort, !list_lookup_fmap, Hri, Hrj.
  eexists _, _. split_and!; [done|done|].
  apply scaled_rank_lt; [lia|done].
Qed.

Lemma centered_rank_trafo_order_witness :
  ∃ u v, Fitness.centered_rank_trafo fitness_ties !! 1%nat = Some u
         ∧ Fitness.centered_rank_trafo fitness_ties !! 3%nat = Some v
         ∧ u < v.
Proof.
  apply (centered_rank_trafo_order fitness_ties 1 3 (Qc_of_Z 1) (Qc_of_Z 1));
    [done | done |].
  right. split; [done | lia].
Defined.

Example centered_rank_trafo_ties :
  Fitness.centered_rank_trafo fitness_ties
  = [Q2Qc (1 # 6); - half; half; - Q2Qc (1 # 6)].
Proof. by_eval. Qed.

(** ** Ranks depend on the order of the values alone *)

Lemma insert_by_ext (key1 key2 : nat → Qc) i l :
  (∀ j, j ∈ l → key1 i ≤ key1 j ↔ key2 i ≤ key2 j) →
  Jnp.insert_by key1 i l = Jnp.insert_by key2 i l.
Proof.
  induction l as [|j l IH]; intros Hext; simpl; [done|].
  pose proof (Hext j (list_elem_of_here _ _)) as Hj.
  destruct (decide (key1 i ≤ key1 j)), (decide (key2 i ≤ key2 j));
    try tauto.
  f_equal. apply IH. intros k Hk. apply Hext. by right.
Qed.

Lemma foldr_insert_by_ext (key1 key2 : nat → Qc) n l :
  (∀ i j, (i < n)%nat → (j < n)%nat →
     key1 i ≤ key1 j ↔ key2 i ≤ key2 j) →
  Forall (λ i, (i < n)%nat) l →
  foldr (Jnp.insert_by key1) [] l = foldr (Jnp.insert_by key2) [] l.
Proof.
  intros Hext. induction 1 as [|i l Hi Hl IH]; simpl; [done|].
  rewrite IH. apply insert_by_ext. intros j Hj.
  apply Hext; [done|].
  rewrite foldr_insert_by_Permutation in Hj.
  rewrite Forall_forall in Hl. by apply Hl.
Qed.

Lemma getitem_map (f : Qc → Qc) (a : list Qc) i :
  (i < length a)%nat →
  Jnp.getitem (map f a) i = f (Jnp.getitem a i).
Proof.
  intros Hi. unfold Jnp.getitem. rewrite list_lookup_fmap.
  destruct (lookup_lt_is_Some_2 a i Hi) as [x ->]. done.
Qed.

Lemma argsort_map (f : Qc → Qc) (a : list Qc) :
  (∀ x y, x ≤ y ↔ f x ≤ f y) →
  Jnp.argsort (map f a) = Jnp.argsort a.
Proof.
  intros Hf. unfold Jnp.argsort. rewrite length_map.
  apply (foldr_insert_by_ext _ _ (length a)).
  - intros i j Hi Hj. rewrite !getitem_map by done. symmetry. apply Hf.
  - apply Forall_forall. intros i Hi%list_elem_of_In%in_seq. lia.
Qed.

(** X10. Centered ranks depend on the order of the fitness values alone:
    they do not change when a strictly increasing function is applied to
    every value. *)
Theorem centered_rank_trafo_invariant (f : Qc → Qc) (fitness : list Qc) :
  (∀ x y, x ≤ y ↔ f x ≤ f y) →
  Fitness.centered_rank_trafo (map f fitness)
  = Fitness.centered_rank_trafo fitness.
Proof.
  intros Hf. unfold Fitness.centered_rank_trafo, Fitness.ranksort.
  by rewrite argsort_map, length_map.
Qed.

Lemma centered_rank_trafo_invariant_witness :
  Fitness.centered_rank_trafo (map (λ x, x + Qc_of_Z 100) fitness_ties)
  = Fitness.centered_rank_trafo fitness_ties.
Proof.
  apply (centered_rank_trafo_invariant (λ x, x + Qc_of_Z 100) fitness_ties).
  intros x y. apply Qcplus_le_mono_r.
Defined.

(** ** Centered ranks sum to zero *)

Lemma sum_app (a b : list Qc) : Jnp.sum (a ++ b) = Jnp.sum a + Jnp.sum b.
Proof.
  induction a as [|x a IH]; simpl.
  - change (Jnp.sum b = 0 + Jnp.sum b). ring.
  - change (Jnp.sum (x :: a ++ b) = Jnp.sum (x :: a) + Jnp.sum b).
    rewrite !sum_cons, IH. ring.
Qed.

Lemma sum_Permutation (a b : list Qc) : a ≡ₚ b → Jnp.sum a = Jnp.sum b.
Proof.
  induction 1 as [|x a b _ IH|x y a|a b c _ IH1 _ IH2].
  - done.
  - by rewrite !sum_cons, IH.
  - rewrite !sum_cons. ring.
  - by rewrite IH1.
Qed.

Lemma sum_scaled_ranks (d : Qc) n :
  Jnp.sum (map (λ r, Qc_of_nat r * d - half) (seq 0 n))
  = Qc_of_nat n * (Qc_of_nat n - 1) * half * d - Qc_of_nat n * half.
Proof.
  induction n as [|n IH].
  - simpl. rewrite Qc_of_nat_0. ring.
  - rewrite seq_S, map_app, sum_app, IH. simpl map.
    rewrite sum_cons. change (Jnp.sum []) with 0.
    rewrite Qc_of_nat_S. unfold half.
    apply Qc_is_canon. Qc_to_Q. field.
Qed.

(** X11. The centered ranks of an array of at least two values sum to zero,
    ties or not. *)
Theorem centered_rank_trafo_sum_zero (fitness : list Qc) :
  (2 ≤ length fitness)%nat →
  Jnp.sum (Fitness.centered_rank_trafo fitness) = 0.
Proof.
  intros HN. rewrite centered_rank_trafo_ranksort.
  rewrite (sum_Permutation _
             (scaled_rank (length fitness) <$> seq 0 (length fitness)))
    by apply fmap_Permutation, ranksort_Permutation.
  unfold scaled_rank, Qcdiv.
  change (λ rank, Qc_of_nat rank * / Qc_of_Z (Z.of_nat (length fitness) - 1)
                  - half)
    with (λ r, Qc_of_nat r * / Qc_of_Z (Z.of_nat (length fitness) - 1)
               - half).
  rewrite (sum_scaled_ranks (/ Qc_of_Z (Z.of_nat (length fitness) - 1))).
  assert (Qc_of_Z (Z.of_nat (length fitness) - 1)
          = Qc_of_nat (length fitness) - 1) as ->.
  { unfold Qc_of_nat. by rewrite Z2Qc_inj_sub, Z2Qc_inj_1. }
  assert (Qc_of_nat (length fitness) - 1 ≠ 0) as Hd.
  { apply Qc_pos_ne_0. pose proof (Qc_of_nat_lt 1 (length fitness)) as H1.
    assert (Qc_of_nat 1 = 1) as E by by_eval. rewrite E in H1.
    specialize (H1 ltac:(lia)). Qc_to_Q. lra. }
  set (n := Qc_of_nat (length fitness)) in *.
  transitivity (n * half * ((n - 1) * / (n - 1)) - n * half); [ring|].
  rewrite Qcmult_inv_r by done. ring.
Qed.

Lemma centered_rank_trafo_sum_zero_witness :
  Jnp.sum (Fitness.centered_rank_trafo fitness_ties) = 0.
Proof. apply (centered_rank_trafo_sum_zero fitness_ties). simpl. lia. Defined.

(** ** Maximization followed by the centered rank *)

Lemma NoDup_map_opp (fitness : list Qc) :
  NoDup fitness → NoDup (map Qcopp fitness).
Proof.
  apply NoDup_fmap_2. intros x y Hxy.
  by rewrite <- (Qcopp_involutive x), Hxy, Qcopp_involutive.
Qed.

Section MaximizeRank.
Context `{Libm}.

(** X12. With [maximize] and [centered_rank] (and no weight decay), on at
    least two pairwise distinct fitness values, [apply] gives the member
    with the highest fitness the value [-0.5] and the member with the lowest
    fitness the value [+0.5]. *)
Theorem apply_maximize_centered_rank (self : Fitness.FitnessShaper)
    (population : list (list Qc)) (fitness : list Qc) :
  Fitness.maximize self = true → Fitness.centered_rank self = true →
  Fitness.z_score self = false → Fitness.norm_range self = false →
  ¬ 0 < Fitness.w_decay self →
  (2 ≤ length fitness)%nat → NoDup fitness →
  let out := Fitness.apply self population fitness in
  (∀ i x, fitness !! i = Some x → (∀ y, y ∈ fitness → y ≤ x) →
     out !! i = Some (- half))
  ∧ (∀ i x, fitness !! i = Some x → (∀ y, y ∈ fitness → x ≤ y) →
     out !! i = Some half).
Proof.
  intros Hmax Hcr Hzs Hnr Hw HN Hnd. cbv zeta. unfold Fitness.apply.
  rewrite Hmax, Hcr, Hzs, Hnr, bool_decide_eq_false_2 by done.
  rewrite (map_ext _ Qcopp) by apply opp_as_mult.
  pose proof (NoDup_map_opp fitness Hnd) as Hnd'.
  rewrite centered_rank_trafo_ranksort, length_map.
  assert (∀ i x, fitness !! i = Some x →
            map Qcopp fitness !! i = Some (- x)) as Hneg.
  { intros i x Hx. by rewrite list_lookup_fmap, Hx. }
  assert (∀ y, y ∈ map Qcopp fitness → ∃ z, y = - z ∧ z ∈ fitness) as Hin.
  { intros y (z & -> & Hz)%list_elem_of_fmap. eauto. }
  split.
  - intros i x Hx Hbig. rewrite list_lookup_fmap.
    destruct (ranksort_count_below _ i (- x) Hnd' (Hneg i x Hx)) as [-> _].
    simpl. rewrite count_below_least; [by rewrite scaled_rank_first|].
    intros y (z & -> & Hz)%Hin. by apply Qcopp_le_compat, Hbig.
  - intros i x Hx Hsmall. rewrite list_lookup_fmap.
    destruct (ranksort_count_below _ i (- x) Hnd' (Hneg i x Hx)) as [-> _].
    simpl. rewrite (count_below_greatest _ i (- x) Hnd' (Hneg i x Hx)).
    + rewrite length_map. by rewrite scaled_rank_last.
    + intros y (z & -> & Hz)%Hin. by apply Qcopp_le_compat, Hsmall.
Qed.

End MaximizeRank.

Lemma apply_maximize_centered_rank_witness :
  Fitness.apply shaper_max_rank [] fitness_3 !! 0%nat = Some (- half)
  ∧ Fitness.apply shaper_max_rank [] fitness_3 !! 1%nat = Some half.
Proof.
  assert (¬ 0 < Fitness.w_decay shaper_max_rank) as Hw by by_eval.
  assert (2 ≤ length fitness_3)%nat as HN by (simpl; lia).
  assert (NoDup fitness_3) as Hnd by by_eval.
  pose proof (@apply_maximize_centered_rank rational_libm shaper_max_rank []
                fitness_3 eq_refl eq_refl eq_refl eq_refl Hw HN Hnd)
    as [Hhigh Hlow].
  split.
  - apply (Hhigh 0%nat (Qc_of_Z 7)); [done|].
    apply Forall_forall. by_eval.
  - apply (Hlow 1%nat (Qc_of_Z (-2))); [done|].
    apply Forall_forall. by_eval.
Defined.

(** ** Uniform crossover and mutation *)

Lemma crossover_select (parent_1 parent_2 : list Qc) (mask : list bool) :
  zip_with Qcplus
    (zip_with (λ x m, x * (1 - b2q m)) parent_1 mask)
    (zip_with (λ y m, y * b2q m) parent_2 mask)
  = zip_with (λ (m : bool) ab, if m then ab.2 else ab.1) mask
      (zip parent_1 parent_2).
Proof.
  revert parent_2 mask.
  induction parent_1 as [|x parent_1 IH]; intros [|y parent_2] [|m mask];
    try done.
  simpl. rewrite IH. f_equal. destruct m; simpl; ring.
Qed.

Section Crossover.
Context `{PRNG}.

(** X13. Uniform crossover of two parents of the same length gives a child
    of that length, each gene of which is the gene of one of the parents at
    the same place. *)
Theorem crossover_genes key (parent_1 parent_2 : list Qc) rate :
  length parent_1 = length parent_2 →
  length (SimpleGA.crossover key parent_1 parent_2 rate) = length parent_1
  ∧ ∀ i a b, parent_1 !! i = Some a → parent_2 !! i = Some b →
      SimpleGA.crossover key parent_1 parent_2 rate !! i = Some a
      ∨ SimpleGA.crossover key parent_1 parent_2 rate !! i = Some b.
Proof.
  intros Hlen. unfold SimpleGA.crossover. rewrite crossover_select. split.
  - rewrite length_zip_with, length_map, length_uniform_vec, length_zip.
    lia.
  - intros i a b Ha Hb. rewrite lookup_zip_with.
    destruct (lookup_lt_is_Some_2 (uniform_vec key (length parent_1)) i)
      as [u Hu]; [rewrite length_uniform_vec; by eapply lookup_lt_Some|].
    rewrite list_lookup_fmap, Hu. simpl.
    rewrite lookup_zip_with, Ha. simpl. rewrite Hb. simpl.
    destruct (bool_decide (u < rate)); auto.
Qed.

(** X14. With [crossover_rate >= 1] the child of two parents of the same
    length is the second parent. *)
Theorem crossover_rate_1 key (parent_1 parent_2 : list Qc) rate :
  length parent_1 = length parent_2 → 1 ≤ rate →
  SimpleGA.crossover key parent_1 parent_2 rate = parent_2.
Proof.
  intros Hlen Hrate. unfold SimpleGA.crossover. rewrite crossover_select.
  pose proof (uniform_vec_range key (length parent_1)) as Hrange.
  pose proof (length_uniform_vec key (length parent_1)) as Hus.
  revert Hrange Hus. generalize (uniform_vec key (length parent_1)).
  revert parent_2 Hlen.
  induction parent_1 as [|x parent_1 IH]; intros [|y parent_2] Hlen [|u us];
    try done.
  intros [[_ Hu] Hall]%Forall_cons [= Hus]. simpl.
  rewrite bool_decide_eq_true_2
    by (eapply Qclt_le_trans; [exact Hu | exact Hrate]).
  f_equal. apply IH; [by injection Hlen | done | done].
Qed.

(** Crossing a parent with itself gives the parent back. *)
Lemma crossover_same key (parent : list Qc) rate :
  SimpleGA.crossover key parent parent rate = parent.
Proof.
  unfold SimpleGA.crossover. rewrite crossover_select.
  pose proof (length_uniform_vec key (length parent)) as Hus.
  revert Hus. generalize (uniform_vec key (length parent)).
  induction parent as [|x parent IH]; intros [|u us]; try done.
  intros [= Hus]. simpl. rewrite IH by done. by destruct (bool_decide _).
Qed.

(** Mutation with a step size of 0 changes nothing. *)
Lemma mutation_std_0 key (solution : list Qc) :
  SimpleGA.mutation key solution 0 = solution.
Proof.
  unfold SimpleGA.mutation.
  pose proof (length_normal_vec key (length solution)) as Hns.
  revert Hns. generalize (normal_vec key (length solution)).
  induction solution as [|x solution IH]; intros [|n ns]; try done.
  intros [= Hns]. simpl. rewrite IH by done. f_equal. ring.
Qed.

End Crossover.

Lemma crossover_genes_witness :
  length (@SimpleGA.crossover counter_prng 5%nat [Qc_of_Z 1; Qc_of_Z 2]
            [Qc_of_Z 3; Qc_of_Z 4] half) = 2%nat.
Proof.
  apply (@crossover_genes counter_prng 5%nat [Qc_of_Z 1; Qc_of_Z 2]
           [Qc_of_Z 3; Qc_of_Z 4] half).
  reflexivity.
Defined.

Lemma crossover_rate_1_witness :
  @SimpleGA.crossover counter_prng 5%nat [Qc_of_Z 1; Qc_of_Z 2]
    [Qc_of_Z 3; Qc_of_Z 4] 1
  = [Qc_of_Z 3; Qc_of_Z 4].
Proof.
  apply (@crossover_rate_1 counter_prng 5%nat [Qc_of_Z 1; Qc_of_Z 2]
           [Qc_of_Z 3; Qc_of_Z 4] 1); [reflexivity | by_eval].
Defined.

(** ** The population that [ask] returns *)

Section AskPopulation.
Context `{PRNG} `{Libm}.

Lemma length_ask_crossover self kc k1 k2 state params :
  length (SimpleGA.ask_crossover self kc k1 k2 state params)
  = SimpleGA.population_size self.
Proof.
  unfold SimpleGA.ask_crossover.
  rewrite length_zip_with, length_zip, length_split, !length_ask_parents.
  lia.
Qed.

(** X15. [ask] returns exactly [population_size] candidates, for SimAnneal
    and for SimpleGA, whatever the state. *)
Theorem ask_population_size sa sa_key sa_state sa_params ga ga_key ga_state
    ga_params :
  length (SimAnneal._ask sa sa_key sa_state sa_params).1
  = SimAnneal.population_size sa
  ∧ length (SimpleGA._ask ga ga_key ga_state ga_params).1
    = SimpleGA.population_size ga.
Proof.
  split.
  - unfold SimAnneal._ask. simpl. by rewrite length_map, length_normal_mat.
  - unfold SimpleGA._ask.
    pose proof (length_split ga_key 4) as Hsplit.
    destruct (split ga_key 4) as [|kc [|km [|k1 [|k2 [|? ?]]]]]; try done.
    simpl. rewrite length_zip_with, length_split, length_ask_crossover. lia.
Qed.

Lemma ask_crossover_rate_0 self kc k1 k2 state params :
  (0 < SimpleGA.num_elites self ≤ SimpleGA.population_size self)%nat →
  length (SimpleGA.population state) = SimpleGA.population_size self →
  length (SimpleGA.fitness state) = SimpleGA.population_size self →
  Forall (λ row, length row = SimpleGA.num_dims self)
    (SimpleGA.population state) →
  SimpleGA.crossover_rate params = 0 →
  SimpleGA.ask_crossover self kc k1 k2 state params
  = SimpleGA.ask_parents self k1 state.
Proof.
  intros HK Hpop Hfit Hrows Hrate. unfold SimpleGA.ask_crossover.
  rewrite Hrate. apply vmap_crossover_rate_0.
  - by rewrite length_split, length_ask_parents.
  - apply Forall2_same_length_lookup. split.
    + by rewrite !length_ask_parents.
    + intros i a b Ha Hb.
      pose proof (ask_parents_shape self k1 state HK Hpop Hfit Hrows) as H1'.
      pose proof (ask_parents_shape self k2 state HK Hpop Hfit Hrows) as H2'.
      rewrite Forall_forall in H1', H2'.
      rewrite (H1' a), (H2' b); [done| |]; by eapply list_elem_of_lookup_2.
Qed.

(** X16. With [crossover_rate = 0] and a step size [std = 0], every
    candidate that [SimpleGA._ask] returns is one of the elite members of
    the state, unchanged. *)
Theorem simple_ga_ask_copies_elites self key state params :
  (0 < SimpleGA.num_elites self ≤ SimpleGA.population_size self)%nat →
  length (SimpleGA.population state) = SimpleGA.population_size self →
  length (SimpleGA.fitness state) = SimpleGA.population_size self →
  Forall (λ row, length row = SimpleGA.num_dims self)
    (SimpleGA.population state) →
  SimpleGA.crossover_rate params = 0 → SimpleGA.std state = 0 →
  Forall (elite_member self state) (SimpleGA._ask self key state params).1.
Proof.
  intros HK Hpop Hfit Hrows Hrate Hstd. unfold SimpleGA._ask.
  pose proof (length_split key 4) as Hsplit.
  destruct (split key 4) as [|kc [|km [|k1 [|k2 [|? ?]]]]]; try done.
  simpl. rewrite ask_crossover_rate_0, Hstd by done.
  assert (∀ (ks : list Key) (ps : list (list Qc)),
            Forall (elite_member self state) ps →
            Forall (elite_member self state)
              (zip_with (λ k x, SimpleGA.mutation k x 0) ks ps)) as Hmut.
  { intros ks ps Hps. revert ks.
    induction Hps as [|p ps Hp Hps IH]; intros [|k ks]; simpl;
      try constructor; [by rewrite mutation_std_0 | apply IH]. }
  apply Hmut, Forall_forall. intros p [i Hp]%list_elem_of_lookup_1.
  by eapply ask_parents_elite.
Qed.

End AskPopulation.

Lemma simple_ga_ask_copies_elites_witness :
  Forall (elite_member ga_strategy ga_state_std_0)
    (@SimpleGA._ask counter_prng ga_strategy 7%nat ga_state_std_0
       ga_params).1.
Proof.
  apply (@simple_ga_ask_copies_elites counter_prng ga_strategy 7%nat
           ga_state_std_0 ga_params); try reflexivity.
  - simpl. lia.
  - repeat constructor.
Defined.

Example simple_ga_ask_std_0 :
  (@SimpleGA._ask counter_prng ga_strategy 7%nat ga_state_std_0 ga_params).1
  = [[Qc_of_Z 0; Qc_of_Z 2]; [Qc_of_Z 1; Qc_of_Z 1];
     [Qc_of_Z 1; Qc_of_Z 1]; [Qc_of_Z 0; Qc_of_Z 2]].
Proof. by_eval. Qed.

(** ** A single elite *)

Lemma map_const_replicate {A B} (f : A → B) (l : list A) (b : B) :
  Forall (λ x, f x = b) l → map f l = replicate (length l) b.
Proof. induction 1 as [|x l Hx _ IH]; simpl; [done|]. by rewrite Hx, IH. Qed.

Section SingleElite.
Context `{PRNG}.

Lemma vmap_crossover_same (keys : list Key) n (b : list Qc) rate :
  length keys = n →
  zip_with (λ k pp, SimpleGA.crossover k pp.1 pp.2 rate) keys
    (zip (replicate n b) (replicate n b))
  = replicate n b.
Proof.
  revert keys. induction n as [|n IH]; intros [|k keys]; try done.
  intros [= Hk]. simpl. by rewrite crossover_same, IH.
Qed.

(** X17. With a single elite ([num_elites = 1]) every offspring before the
    mutation is the member that stands first in the ascending order of
    fitness, a member of least fitness, whatever the crossover rate and the
    keys. *)
Theorem simple_ga_single_elite self state :
  SimpleGA.num_elites self = 1%nat →
  (0 < SimpleGA.population_size self)%nat →
  length (SimpleGA.population state) = SimpleGA.population_size self →
  length (SimpleGA.fitness state) = SimpleGA.population_size self →
  ∃ m best,
    Jnp.argsort (SimpleGA.fitness state) !! 0%nat = Some m
    ∧ SimpleGA.population state !! m = Some best
    ∧ (∀ y, y ∈ SimpleGA.fitness state →
         Jnp.getitem (SimpleGA.fitness state) m ≤ y)
    ∧ ∀ key_crossover key_1 key_2 params,
        SimpleGA.ask_crossover self key_crossover key_1 key_2 state params
        = replicate (SimpleGA.population_size self) best.
Proof.
  intros HK Hn Hpop Hfit.
  destruct (lookup_lt_is_Some_2 (Jnp.argsort (SimpleGA.fitness state)) 0)
    as [m Hm]; [rewrite argsort_length; lia|].
  pose proof (argsort_lt _ _ _ Hm) as Hmlt.
  destruct (lookup_lt_is_Some_2 (SimpleGA.population state) m)
    as [best Hbest]; [lia|].
  exists m, best. split_and!; try done.
  - intros y Hy. rewrite <- take_argsort_Permutation in Hy.
    apply list_elem_of_lookup_1 in Hy as [k Hk].
    assert (Jnp.take (SimpleGA.fitness state)
              (Jnp.argsort (SimpleGA.fitness state)) !! 0%nat
            = Some (Jnp.getitem (SimpleGA.fitness state) m)) as H0.
    { unfold Jnp.take. by rewrite list_lookup_fmap, Hm. }
    destruct k as [|k].
    + rewrite H0 in Hk. injection Hk as <-. apply Qcle_refl.
    + eapply (StronglySorted_lookup_le _ 0 (S k));
        eauto using take_argsort_sorted. lia.
  - intros kc k1 k2 params.
    assert (∀ k, SimpleGA.ask_parents self k state
                 = replicate (SimpleGA.population_size self) best) as Hpar.
    { intros k. unfold SimpleGA.ask_parents, Random.choice, Jnp.take_rows.
      rewrite (map_const_replicate _ _ best).
      - by rewrite length_choice_indices.
      - eapply Forall_impl;
          [apply (choice_indices_elite k (SimpleGA.population_size self)
                    (SimpleGA.num_elites self)
                    (SimpleGA.population_size self)); lia|].
        intros j Hj. simpl in Hj. assert (j = 0%nat) as -> by lia.
        unfold SimpleGA.elites, Jnp.take_rows, Jnp.getrow.
        rewrite list_lookup_fmap, Hm. simpl. by rewrite Hbest. }
    unfold SimpleGA.ask_crossover. rewrite !Hpar.
    apply vmap_crossover_same, length_split.
Qed.

End SingleElite.

Lemma simple_ga_single_elite_witness :
  ∃ m best,
    Jnp.argsort (SimpleGA.fitness ga_state) !! 0%nat = Some m
    ∧ SimpleGA.population ga_state !! m = Some best
    ∧ @SimpleGA.ask_crossover counter_prng ga_single_elite 1%nat 2%nat 3%nat
        ga_state ga_params
      = replicate 4 best.
Proof.
  destruct (@simple_ga_single_elite counter_prng ga_single_elite ga_state)
    as (m & best & Hm & Hbest & _ & Hall);
    [reflexivity | simpl; lia | reflexivity | reflexivity |].
  exists m, best. split_and!; [done | done | apply Hall].
Defined.

(** ** The step size and the temperature over a run of [tell] calls *)

Lemma maximum_is_max x y : is_max (Jnp.maximum x y) x y.
Proof.
  split_and!; [apply maximum_ge_l | apply maximum_ge_r | apply maximum_cases].
Qed.

Lemma maximum_l x y : y ≤ x → Jnp.maximum x y = x.
Proof.
  intros Hyx. unfold Jnp.maximum. rewrite decide_False; [done|].
  by apply Qcle_not_lt.
Qed.

(** Two decays floored at [L] are one decay by the product, floored at [L]. *)
Lemma maximum_decay (x c L : Qc) :
  0 ≤ c → c ≤ 1 → 0 ≤ L →
  Jnp.maximum (Jnp.maximum x L * c) L = Jnp.maximum (x * c) L.
Proof.
  intros Hc0 Hc1 HL. unfold Jnp.maximum.
  repeat case_decide;
    repeat match goal with
    | H : ¬ (_ < _) |- _ => apply Qcnot_lt_le in H
    end;
    try done; apply (anti_symm Qcle); Qc_to_Q; nra.
Qed.

Lemma Qcpower_unit (d : Qc) n : 0 ≤ d → d ≤ 1 → 0 ≤ d ^ n ∧ d ^ n ≤ 1.
Proof.
  intros Hd0 Hd1. induction n as [|n [IH0 IH1]]; simpl.
  - split; by_eval.
  - set (p := d ^ n) in *. Qc_to_Q. split; nra.
Qed.

Section TellRun.
Context `{PRNG} `{Libm}.

Lemma sim_anneal_tell_many_cons self params g generations state :
  sim_anneal_tell_many self params (g :: generations) state
  = sim_anneal_tell_many self params generations
      (SimAnneal._tell self g.1.1 g.1.2 g.2 state params).
Proof. done. Qed.

Lemma sim_anneal_tell_many_std self params generations state :
  0 ≤ SimAnneal.std_decay params → SimAnneal.std_decay params ≤ 1 →
  0 ≤ SimAnneal.std_limit params →
  SimAnneal.std_limit params ≤ SimAnneal.std state →
  SimAnneal.std (sim_anneal_tell_many self params generations state)
  = Jnp.maximum
      (SimAnneal.std state * SimAnneal.std_decay params ^ length generations)
      (SimAnneal.std_limit params).
Proof.
  intros Hd0 Hd1 HL. revert state.
  induction generations as [|g generations IH]; intros state Hst.
  - simpl. rewrite Qcmult_1_r. by rewrite maximum_l.
  - rewrite sim_anneal_tell_many_cons, IH by apply maximum_ge_r.
    simpl SimAnneal.std. unfold Jnp.clip.
    destruct (Qcpower_unit (SimAnneal.std_decay params)
                (length generations) Hd0 Hd1) as [Hp0 Hp1].
    rewrite maximum_decay by done.
    simpl length. simpl Qcpower. by rewrite Qcmult_assoc.
Qed.

Lemma sim_anneal_tell_many_temperature self params generations state :
  0 ≤ SimAnneal.temperature_decay params →
  SimAnneal.temperature_decay params ≤ 1 →
  0 ≤ SimAnneal.temperature_limit params →
  SimAnneal.temperature_limit params ≤ SimAnneal.temperature state →
  SimAnneal.temperature (sim_anneal_tell_many self params generations state)
  = Jnp.maximum
      (SimAnneal.temperature state
       * SimAnneal.temperature_decay params ^ length generations)
      (SimAnneal.temperature_limit params).
Proof.
  intros Hd0 Hd1 HL. revert state.
  induction generations as [|g generations IH]; intros state Hst.
  - simpl. rewrite Qcmult_1_r. by rewrite maximum_l.
  - rewrite sim_anneal_tell_many_cons, IH by apply maximum_ge_r.
    simpl SimAnneal.temperature. unfold Jnp.clip.
    destruct (Qcpower_unit (SimAnneal.temperature_decay params)
                (length generations) Hd0 Hd1) as [Hp0 Hp1].
    rewrite maximum_decay by done.
    simpl length. simpl Qcpower. by rewrite Qcmult_assoc.
Qed.

(** X18. After [n] calls of [SimAnneal._tell], whatever the populations, the
    fitness values and the keys, the step size is
    [max(std * std_decay^n, std_limit)] and the temperature is
    [max(temperature * temperature_decay^n, temperature_limit)], when the
    decay rates lie in [[0, 1]] and the limits are not negative and not
    above the initial values. *)
Theorem sim_anneal_tell_many_decays self params generations state :
  0 ≤ SimAnneal.std_decay params ∧ SimAnneal.std_decay params ≤ 1 →
  0 ≤ SimAnneal.std_limit params
  ∧ SimAnneal.std_limit params ≤ SimAnneal.std state →
  0 ≤ SimAnneal.temperature_decay params
  ∧ SimAnneal.temperature_decay params ≤ 1 →
  0 ≤ SimAnneal.temperature_limit params
  ∧ SimAnneal.temperature_limit params ≤ SimAnneal.temperature state →
  let state' := sim_anneal_tell_many self params generations state in
  let n := length generations in
  is_max (SimAnneal.std state')
    (SimAnneal.std state * SimAnneal.std_decay params ^ n)
    (SimAnneal.std_limit params)
  ∧ is_max (SimAnneal.temperature state')
      (SimAnneal.temperature state * SimAnneal.temperature_decay params ^ n)
      (SimAnneal.temperature_limit params).
Proof.
  intros [Hs0 Hs1] [Hsl0 Hsl1] [Ht0 Ht1] [Htl0 Htl1]. cbv zeta.
  rewrite sim_anneal_tell_many_std, sim_anneal_tell_many_temperature
    by done.
  split; apply maximum_is_max.
Qed.

Lemma simple_ga_tell_many_std self params generations state :
  0 ≤ SimpleGA.std_decay params → SimpleGA.std_decay params ≤ 1 →
  0 ≤ SimpleGA.std_limit params →
  SimpleGA.std_limit params ≤ SimpleGA.std state →
  SimpleGA.std (simple_ga_tell_many self params generations state)
  = Jnp.maximum
      (SimpleGA.std state * SimpleGA.std_decay params ^ length generations)
      (SimpleGA.std_limit params).
Proof.
  intros Hd0 Hd1 HL. revert state.
  induction generations as [|g generations IH]; intros state Hst.
  - simpl. rewrite Qcmult_1_r. by rewrite maximum_l.
  - change (simple_ga_tell_many self params (g :: generations) state)
      with (simple_ga_tell_many self params generations
              (SimpleGA._tell self g.1.1 g.1.2 g.2 state params)).
    rewrite IH by apply maximum_ge_r.
    simpl SimpleGA.std. unfold Jnp.clip.
    destruct (Qcpower_unit (SimpleGA.std_decay params)
                (length generations) Hd0 Hd1) as [Hp0 Hp1].
    rewrite maximum_decay by done.
    simpl length. simpl Qcpower. by rewrite Qcmult_assoc.
Qed.

(** X19. After a run of [SimpleGA._tell] calls the state holds the
    population and the fitness of the last call, and the step size is
    [max(std * std_decay^n, std_limit)] for the number [n] of calls, when
    the decay rate lies in [[0, 1]] and the limit is not negative and not
    above the initial step size. *)
Theorem simple_ga_tell_many_result self params generations key population
    fitness state :
  0 ≤ SimpleGA.std_decay params ∧ SimpleGA.std_decay params ≤ 1 →
  0 ≤ SimpleGA.std_limit params
  ∧ SimpleGA.std_limit params ≤ SimpleGA.std state →
  let run := generations ++ [(key, population, fitness)] in
  let state' := simple_ga_tell_many self params run state in
  SimpleGA.population state' = population
  ∧ SimpleGA.fitness state' = fitness
  ∧ is_max (SimpleGA.std state')
      (SimpleGA.std state * SimpleGA.std_decay params ^ length run)
      (SimpleGA.std_limit params).
Proof.
  intros [Hd0 Hd1] [HL0 HL1]. cbv zeta. split_and!.
  - unfold simple_ga_tell_many. by rewrite foldl_app.
  - unfold simple_ga_tell_many. by rewrite foldl_app.
  - rewrite simple_ga_tell_many_std by done. apply maximum_is_max.
Qed.

End TellRun.

Lemma sim_anneal_tell_many_decays_witness :
  let run := [(1%nat, sa_population, sa_fitness);
              (2%nat, sa_population, sa_fitness)] in
  let state' :=
    @sim_anneal_tell_many counter_prng rational_libm sa_strategy
      sim_anneal_default_params run sa_state in
  is_max (SimAnneal.std state') (1 * 1 ^ 2) 0
  ∧ is_max (SimAnneal.temperature state') (1 * Q2Qc (999 # 1000) ^ 2)
      (Q2Qc (1 # 10)).
Proof.
  apply (@sim_anneal_tell_many_decays counter_prng rational_libm sa_strategy
           sim_anneal_default_params
           [(1%nat, sa_population, sa_fitness);
            (2%nat, sa_population, sa_fitness)] sa_state);
    split; by_eval.
Defined.

Lemma simple_ga_tell_many_result_witness :
  let state' :=
    @simple_ga_tell_many counter_prng ga_strategy simple_ga_default_params
      ([(1%nat, SimpleGA.population ga_state, SimpleGA.fitness ga_state)]
       ++ [(2%nat, SimpleGA.population ga_state, SimpleGA.fitness ga_state)])
      ga_state in
  SimpleGA.fitness state' = SimpleGA.fitness ga_state.
Proof.
  apply (@simple_ga_tell_many_result counter_prng ga_strategy
           simple_ga_default_params
           [(1%nat, SimpleGA.population ga_state, SimpleGA.fitness ga_state)]
           2%nat
           (SimpleGA.population ga_state) (SimpleGA.fitness ga_state)
           ga_state); split; by_eval.
Defined.

(** ** Ties in the generation of [SimAnneal._tell] *)

Lemma argmin_from_first (pre a : list Qc) bi bv :
  pre !! bi = Some bv → (∀ x, x ∈ pre → bv ≤ x) →
  (∀ j y, (j < bi)%nat → pre !! j = Some y → bv < y) →
  ∃ m, (pre ++ a) !! Jnp.argmin_from a (length pre) bi bv = Some m
       ∧ (∀ x, x ∈ pre ++ a → m ≤ x)
       ∧ ∀ j y, (j < Jnp.argmin_from a (length pre) bi bv)%nat →
           (pre ++ a) !! j = Some y → m < y.
Proof.
  revert pre bi bv. induction a as [|z a IH]; intros pre bi bv Hbi Hmin Hfst.
  - exists bv. rewrite app_nil_r. by split_and!.
  - simpl. rewrite cons_middle, app_assoc.
    replace (S (length pre)) with (length (pre ++ [z]))
      by (rewrite length_app; simpl; lia).
    destruct (decide (z < bv)) as [Hlt|Hge].
    + apply IH.
      * by rewrite lookup_app_r, Nat.sub_diag.
      * intros x [Hx | ->%list_elem_of_singleton]%elem_of_app;
          [|apply Qcle_refl].
        apply Qclt_le_weak. eapply Qclt_le_trans; [exact Hlt|by apply Hmin].
      * intros j y Hj Hy. rewrite lookup_app_l in Hy by done.
        eapply Qclt_le_trans; [exact Hlt|].
        by eapply Hmin, list_elem_of_lookup_2.
    + apply IH.
      * apply lookup_app_l_Some, Hbi.
      * intros x [Hx | ->%list_elem_of_singleton]%elem_of_app;
          [by apply Hmin | by apply Qcnot_lt_le].
      * intros j y Hj Hy. apply (Hfst j y Hj).
        rewrite lookup_app_l in Hy; [done|].
        apply lookup_lt_Some in Hbi. lia.
Qed.

(** On a non-empty array [argmin] is the first index of the least value. *)
Lemma argmin_first (a : list Qc) :
  a ≠ [] →
  ∃ m, a !! Jnp.argmin a = Some m
       ∧ (∀ x, x ∈ a → m ≤ x)
       ∧ ∀ j y, (j < Jnp.argmin a)%nat → a !! j = Some y → m < y.
Proof.
  destruct a as [|z a]; [done|]. intros _.
  apply (argmin_from_first [z] a 0 z); [done| |].
  - intros x ->%list_elem_of_singleton. apply Qcle_refl.
  - intros j y Hj. lia.
Qed.

Section TellTies.
Context `{PRNG} `{Libm}.

(** X20. When the least fitness of the generation improves on the current
    fitness, [SimAnneal._tell] takes the first member of least fitness:
    every member before it has a strictly higher fitness, and the other
    fields of the state that the acceptance does not concern (the best
    solution and fitness ever, the generation counter) are left as they
    are. *)
Theorem sim_anneal_tell_first_best self population fitness state params :
  fitness ≠ [] → length population = length fitness →
  ∃ i member f,
    population !! i = Some member
    ∧ fitness !! i = Some f
    ∧ (∀ y, y ∈ fitness → f ≤ y)
    ∧ (∀ j y, (j < i)%nat → fitness !! j = Some y → f < y)
    ∧ (f - SimAnneal.current_fitness state < 0 → ∀ key,
         let state' :=
           SimAnneal._tell self key population fitness state params in
         SimAnneal.current_solution state' = member
         ∧ SimAnneal.current_fitness state' = f
         ∧ SimAnneal.best_solution state' = SimAnneal.best_solution state
         ∧ SimAnneal.best_fitness state' = SimAnneal.best_fitness state
         ∧ SimAnneal.generation_counter state'
           = SimAnneal.generation_counter state).
Proof.
  intros Hne Hlen.
  destruct (argmin_first fitness Hne) as (m & Hm & Hmin & Hfst).
  destruct (lookup_lt_is_Some_2 population (Jnp.argmin fitness))
    as [row Hrow]; [rewrite Hlen; by eapply lookup_lt_Some|].
  exists (Jnp.argmin fitness), row, m. split_and!; try done.
  intros Hd key. unfold SimAnneal._tell. simpl.
  unfold Jnp.getrow, Jnp.getitem. rewrite Hrow, Hm. simpl.
  by rewrite (bool_decide_eq_true_2 _ Hd).
Qed.

End TellTies.

Lemma sim_anneal_tell_first_best_witness :
  ∃ i member f,
    sa_population !! i = Some member
    ∧ sa_fitness_ties !! i = Some f
    ∧ (∀ j y, (j < i)%nat → sa_fitness_ties !! j = Some y → f < y).
Proof.
  destruct (@sim_anneal_tell_first_best counter_prng rational_libm
              sa_strategy sa_population sa_fitness_ties sa_state sa_params)
    as (i & member & f & H1 & H2 & _ & H4 & _); [done | done |].
  by exists i, member, f.
Defined.

Example sim_anneal_tell_ties (key : nat) :
  SimAnneal.current_solution
    (@SimAnneal._tell counter_prng rational_libm sa_strategy key
       sa_population sa_fitness_ties sa_state sa_params)
  = [Qc_of_Z 2; Qc_of_Z 0].
Proof. reflexivity. Qed.

(** ** Evolution paths *)

Module EvolutionPathFacts.
Import EvolutionPath.

Lemma update_entry self paths diff d t row p dd lr :
  paths !! d = Some row → row !! t = Some p → diff !! d = Some dd →
  timescales self !! t = Some lr →
  ∃ row', update self paths diff !! d = Some row'
          ∧ row' !! t = Some ((1 - lr) * p + lr * dd).
Proof.
  intros Hrow Hp Hdd Hlr. unfold update, stack_columns.
  pose proof (lookup_lt_Some _ _ _ Hrow) as Hd.
  pose proof (lookup_lt_Some _ _ _ Hlr) as Ht.
  eexists. split.
  - rewrite list_lookup_fmap, lookup_seq_lt by done. simpl. reflexivity.
  - rewrite list_lookup_fmap, lookup_zip_with, Hlr. simpl.
    rewrite lookup_seq_lt by done. simpl. f_equal.
    unfold Jnp.getitem, update_path, column.
    rewrite lookup_zip_with, list_lookup_fmap, Hrow. simpl.
    rewrite Hdd. simpl. unfold Jnp.getitem. by rewrite Hp.
Qed.

Lemma update_length self paths diff :
  length (update self paths diff) = length paths.
Proof. unfold update, stack_columns. by rewrite length_map, length_seq. Qed.

Lemma update_row_length self paths diff d row' :
  update self paths diff !! d = Some row' →
  length row' = length (timescales self).
Proof.
  unfold update, stack_columns. rewrite list_lookup_fmap.
  destruct (seq 0 (length paths) !! d) as [d'|]; [|done].
  simpl. intros [= <-].
  by rewrite length_map, length_zip_with, length_seq, Nat.min_id.
Qed.

Lemma update_as_rows self paths diff :
  length diff = length paths →
  Forall (λ row, length row = length (timescales self)) paths →
  update self paths diff = evolution_path_update_rows self paths diff.
Proof.
  intros Hdiff Hrows. apply list_eq. intros d.
  destruct (paths !! d) as [row|] eqn:Hrow.
  - destruct (lookup_lt_is_Some_2 diff d) as [dd Hdd];
      [rewrite Hdiff; by eapply lookup_lt_Some|].
    unfold evolution_path_update_rows at 1.
    rewrite lookup_zip_with, Hrow. simpl.
    rewrite Hdd. simpl.
    destruct (lookup_lt_is_Some_2 (update self paths diff) d) as [row' Hrow'];
      [rewrite update_length; by eapply lookup_lt_Some|].
    rewrite Hrow'. f_equal. apply list_eq. intros t.
    assert (length row = length (timescales self)) as Hlen.
    { rewrite Forall_forall in Hrows.
      eapply Hrows, list_elem_of_lookup_2, Hrow. }
    destruct (timescales self !! t) as [lr|] eqn:Hlr.
    + destruct (lookup_lt_is_Some_2 row t) as [p Hp];
        [rewrite Hlen; by eapply lookup_lt_Some|].
      destruct (update_entry self paths diff d t row p dd lr Hrow Hp Hdd Hlr)
        as (row'' & Hrow'' & Hent).
      rewrite Hrow' in Hrow''. injection Hrow'' as <-.
      by rewrite Hent, lookup_zip_with, Hlr, Hp.
    + rewrite lookup_zip_with, Hlr. simpl.
      apply lookup_ge_None. rewrite (update_row_length _ _ _ _ _ Hrow').
      by apply lookup_ge_None.
  - unfold evolution_path_update_rows.
    rewrite lookup_zip_with, Hrow. simpl.
    apply lookup_ge_None. rewrite update_length. by apply lookup_ge_None.
Qed.

End EvolutionPathFacts.

(** X21. [EvolutionPath.update] keeps the shape of [paths] (one row per
    dimension, one column per timescale) and sets the entry of dimension [d]
    and timescale [t] to [(1 - lr_t) * paths[d][t] + lr_t * diff[d]]. *)
Theorem evolution_path_update_entry self (paths : list (list Qc))
    (diff : list Qc) :
  length diff = length paths →
  Forall (λ row, length row = length (EvolutionPath.timescales self)) paths →
  length (EvolutionPath.update self paths diff) = length paths
  ∧ Forall (λ row, length row = length (EvolutionPath.timescales self))
      (EvolutionPath.update self paths diff)
  ∧ ∀ d t row p dd lr,
      paths !! d = Some row → row !! t = Some p → diff !! d = Some dd →
      EvolutionPath.timescales self !! t = Some lr →
      ∃ row', EvolutionPath.update self paths diff !! d = Some row'
              ∧ row' !! t = Some ((1 - lr) * p + lr * dd).
Proof.
  intros Hdiff Hrows. split_and!.
  - apply EvolutionPathFacts.update_length.
  - apply Forall_forall. intros row' [d Hd]%list_elem_of_lookup_1.
    by eapply EvolutionPathFacts.update_row_length.
  - intros d t row p dd lr. apply EvolutionPathFacts.update_entry.
Qed.

Lemma evolution_path_update_entry_witness :
  length (EvolutionPath.update ep_two_scales
            (EvolutionPath.init ep_two_scales) ep_diff) = 2%nat.
Proof.
  apply (evolution_path_update_entry ep_two_scales
           (EvolutionPath.init ep_two_scales) ep_diff); [done|].
  by repeat constructor.
Defined.

Example evolution_path_update_from_init :
  EvolutionPath.update ep_two_scales (EvolutionPath.init ep_two_scales)
    ep_diff
  = [[Q2Qc (2 # 5); Qc_of_Z 2]; [- Q2Qc (1 # 5); Qc_of_Z (-1)]].
Proof. by_eval. Qed.

(** X22. With a rate [lr_t] in [[0, 1]], the new entry of an evolution path
    lies between the old entry and the value of [diff]. *)
Theorem evolution_path_update_between self (paths : list (list Qc))
    (diff : list Qc) d t row p dd lr :
  paths !! d = Some row → row !! t = Some p → diff !! d = Some dd →
  EvolutionPath.timescales self !! t = Some lr →
  0 ≤ lr → lr ≤ 1 →
  ∃ row' v, EvolutionPath.update self paths diff !! d = Some row'
            ∧ row' !! t = Some v
            ∧ Jnp.minimum p dd ≤ v ∧ v ≤ Jnp.maximum p dd.
Proof.
  intros Hrow Hp Hdd Hlr H0 H1.
  destruct (EvolutionPathFacts.update_entry self paths diff d t row p dd lr
              Hrow Hp Hdd Hlr) as (row' & Hrow' & Hv).
  exists row', ((1 - lr) * p + lr * dd). split_and!; try done.
  - unfold Jnp.minimum. case_decide;
      repeat match goal with
      | H : ¬ (_ < _) |- _ => apply Qcnot_lt_le in H
      end; Qc_to_Q; nra.
  - unfold Jnp.maximum. case_decide;
      repeat match goal with
      | H : ¬ (_ < _) |- _ => apply Qcnot_lt_le in H
      end; Qc_to_Q; nra.
Qed.

Lemma evolution_path_update_between_witness :
  ∃ row' v,
    EvolutionPath.update ep_two_scales (EvolutionPath.init ep_two_scales)
      ep_diff !! 0%nat = Some row'
    ∧ row' !! 1%nat = Some v
    ∧ Jnp.minimum 0 (Qc_of_Z 4) ≤ v ∧ v ≤ Jnp.maximum 0 (Qc_of_Z 4).
Proof.
  apply (evolution_path_update_between ep_two_scales
           (EvolutionPath.init ep_two_scales) ep_diff 0 1 [0; 0] 0
           (Qc_of_Z 4) half); try done; by_eval.
Defined.

Lemma zip_with_map_r_same {A B C} (f : A → B → C) (g : A → B) (l : list A) :
  zip_with f l (map g l) = map (λ x, f x (g x)) l.
Proof. induction l as [|x l IH]; simpl; [done|]. by rewrite IH. Qed.

Lemma zip_with_map_l_same {A B C} (f : B → A → C) (g : A → B) (l : list A) :
  zip_with f (map g l) l = map (λ x, f (g x) x) l.
Proof. induction l as [|x l IH]; simpl; [done|]. by rewrite IH. Qed.

(** X23. Starting from [init] (all zeros), [n] updates with the same [diff]
    give the entry [(1 - (1 - lr_t)^n) * diff[d]] at dimension [d] and
    timescale [t]: an exponential moving average that approaches [diff]. *)
Theorem evolution_path_update_many self n (diff : list Qc) :
  length diff = EvolutionPath.num_dims self →
  EvolutionPath.update_many self n diff (EvolutionPath.init self)
  = evolution_path_after self n diff.
Proof.
  intros Hdiff. unfold EvolutionPath.update_many.
  induction n as [|n IH].
  - simpl. unfold EvolutionPath.init, evolution_path_after.
    rewrite (map_const_replicate _ diff
               (replicate (length (EvolutionPath.timescales self)) 0)).
    + by rewrite Hdiff.
    + apply Forall_forall. intros dd _.
      apply map_const_replicate, Forall_forall. intros lr _.
      simpl. ring.
  - simpl Nat.iter. rewrite IH.
    rewrite EvolutionPathFacts.update_as_rows.
    + unfold evolution_path_update_rows, evolution_path_after.
      rewrite zip_with_map_l_same. apply map_ext. intros dd.
      rewrite zip_with_map_r_same. apply map_ext. intros lr.
      simpl Qcpower. ring.
    + unfold evolution_path_after. by rewrite length_map.
    + unfold evolution_path_after. apply Forall_fmap, Forall_forall.
      intros dd _. simpl. by rewrite length_map.
Qed.

Lemma evolution_path_update_many_witness :
  EvolutionPath.update_many ep_two_scales 3 ep_diff
    (EvolutionPath.init ep_two_scales)
  = evolution_path_after ep_two_scales 3 ep_diff.
Proof.
  apply (evolution_path_update_many ep_two_scales 3 ep_diff). reflexivity.
Defined.

Example evolution_path_three_updates :
  EvolutionPath.update_many ep_two_scales 3 ep_diff
    (EvolutionPath.init ep_two_scales)
  = [[Q2Qc (271 # 250); Q2Qc (7 # 2)];
     [- Q2Qc (271 # 500); - Q2Qc (7 # 4)]].
Proof. by_eval. Qed.

(** ** The rows of the feature matrix *)

Lemma foldl_concatenate_cols (M : list (list Qc)) (cols : list (list Qc)) i
    (row : list Qc) :
  Forall (λ col, length col = length M) cols →
  M !! i = Some row →
  foldl LesTools.concatenate_cols M (LesTools.reshape_col <$> cols) !! i
  = Some (row ++ map (λ col, Jnp.getitem col i) cols).
Proof.
  intros Hcols. revert M row Hcols.
  induction cols as [|col cols IH]; intros M row Hcols Hrow; simpl.
  - by rewrite app_nil_r.
  - apply Forall_cons in Hcols as [Hcol Hcols].
    destruct (lookup_lt_is_Some_2 col i) as [v Hv];
      [rewrite Hcol; by eapply lookup_lt_Some|].
    rewrite (IH _ (row ++ [v])).
    + rewrite <- app_assoc. simpl. unfold Jnp.getitem at 2. by rewrite Hv.
    + eapply Forall_impl; [exact Hcols|]. intros c Hc. simpl in Hc.
      unfold LesTools.concatenate_cols, LesTools.reshape_col.
      rewrite length_zip_with, length_map. lia.
    + unfold LesTools.concatenate_cols, LesTools.reshape_col.
      rewrite lookup_zip_with, Hrow. simpl.
      by rewrite list_lookup_fmap, Hv.
Qed.

Lemma length_foldl_concatenate_cols (M : list (list Qc))
    (cols : list (list Qc)) :
  Forall (λ col, length col = length M) cols →
  length (foldl LesTools.concatenate_cols M (LesTools.reshape_col <$> cols))
  = length M.
Proof.
  revert M. induction cols as [|col cols IH]; intros M Hcols; simpl; [done|].
  apply Forall_cons in Hcols as [Hcol Hcols].
  assert (length (LesTools.concatenate_cols M (LesTools.reshape_col col))
          = length M) as Hlen.
  { unfold LesTools.concatenate_cols, LesTools.reshape_col.
    rewrite length_zip_with, length_map. lia. }
  rewrite IH; [done|].
  eapply Forall_impl; [exact Hcols|]. intros c Hc. simpl in *. lia.
Qed.

Section FeatureRows.
Context `{FitnessShapingFns}.

(** X24. Without the best-difference column, and when each enabled
    transform gives one value per member, [FitnessFeatures.apply] returns
    one row per member: the indicator of [fitness < best_fitness] (on the
    negated fitness if [maximize] is set), which is 1 or 0, followed by the
    member's value in each enabled column, in the order centered rank,
    z-score, range normalization, L2 penalty. *)
Theorem fitness_features_rows self x fitness best_fitness :
  let fitness' :=
    if LesTools.ff_maximize self then map (λ f, (-1) * f) fitness
    else fitness in
  LesTools.ff_diff_best self = false →
  Forall (λ col, length col = length fitness)
    (optional_columns self x fitness') →
  ∃ M, LesTools.apply self x fitness best_fitness = Ok M
       ∧ length M = length fitness
       ∧ ∀ i f, fitness' !! i = Some f →
           M !! i
           = Some ((if bool_decide (f < best_fitness) then 1 else 0)
                   :: map (λ col, Jnp.getitem col i)
                        (optional_columns self x fitness')).
Proof.
  intros fitness' Hdiff Hcols.
  rewrite apply_columns_without_diff_best by done. fold fitness'.
  set (ind := LesTools.reshape_col _).
  assert (length fitness' = length fitness) as Hlen'.
  { unfold fitness'. destruct (LesTools.ff_maximize self); [|done].
    by rewrite length_map. }
  assert (length ind = length fitness) as Hind.
  { unfold ind, LesTools.reshape_col. by rewrite !length_map. }
  eexists. split_and!; [done| |].
  - rewrite length_foldl_concatenate_cols; [done|]. by rewrite Hind.
  - intros i f Hf.
    rewrite (foldl_concatenate_cols _ _ i
               [if bool_decide (f < best_fitness) then 1 else 0]).
    + done.
    + by rewrite Hind.
    + unfold ind, LesTools.reshape_col.
      rewrite !list_lookup_fmap, Hf. simpl. do 2 f_equal.
      destruct (bool_decide (f < best_fitness)); simpl; ring.
Qed.

End FeatureRows.

Lemma fitness_features_rows_witness :
  ∃ M, @LesTools.apply core_fitness_shaping features_rank_range
         population_2x2 fitness_2 0 = Ok M
       ∧ length M = 2%nat.
Proof.
  destruct (@fitness_features_rows core_fitness_shaping features_rank_range
              population_2x2 fitness_2 0) as (M & HM & Hlen & _).
  - reflexivity.
  - repeat constructor.
  - by exists M.
Defined.

